(** * Blackjack round logic of [game.py]: embedding and verification

    The round logic of the [Game] class (deck construction, Ace-aware
    scoring, the click handler, the dealer's per-frame step and the winner
    determination), the names of the cards, what [draw] sends to the screen
    and the main loop are embedded as pure functions over an explicit record
    of the instance attributes.  Python integers are [Z]; Python lists are
    [list], with [list.pop()] taking the LAST element and [list.append]
    adding at the end; an uncaught [IndexError] is the [Error] result. *)

From Stdlib Require Import ZArith List String Bool Lia Permutation FinFun.
From Stdlib Require Ascii Decimal DecimalString DecimalZ.
Import ListNotations.
Open Scope string_scope.
Open Scope list_scope.
Open Scope Z_scope.

(** ** Results of fallible code *)

Inductive exn : Type := IndexError.

Inductive result (A : Type) : Type :=
| Ok (a : A)
| Error (e : exn).
Arguments Ok {A} a.
Arguments Error {A} e.

Definition bind {A B : Type} (r : result A) (k : A -> result B) : result B :=
  match r with
  | Ok a => k a
  | Error e => Error e
  end.

Notation "x <- r ;; k" := (bind r (fun x => k))
  (at level 61, r at next level, right associativity).
Notation "' p <- r ;; k" := (bind r (fun x => let p := x in k))
  (at level 61, p pattern, r at next level, right associativity).

(** ** Cards *)

(** The four suit strings of [make_deck], in the order of its [suits] list. *)
Inductive suit : Type := Clubs | Diamonds | Hearts | Spades.

(** A card is the tuple [(rank, suit)]. *)
Definition card : Type := (Z * suit)%type.

(** [range(lo, hi)]. *)
Definition range (lo hi : Z) : list Z :=
  map (fun i => lo + Z.of_nat i) (seq 0 (Z.to_nat (hi - lo))).

(** [list.pop()]: removes and returns the last element; [IndexError] on the
    empty list.  The result is [(popped, remaining list)]. *)
Definition pop {A : Type} (l : list A) : result (A * list A) :=
  match rev l with
  | [] => Error IndexError
  | x :: r => Ok (x, rev r)
  end.

(** ** [make_deck] *)

Definition suits : list suit := [Clubs; Diamonds; Hearts; Spades].

(** The outer loop over [suits], the inner loop over [range(1, 14)], each
    iteration appending [(rank, suit)]. *)
Definition make_deck : list card :=
  flat_map (fun s => map (fun rank => (rank, s)) (range 1 14)) suits.

(** ** [score_hand] *)

(** The [for card in hand] loop, threading [total] and [aces].  [aces] is a
    counter that starts at 0 and only moves by one, so it is a [nat]. *)
Fixpoint score_loop (hand : list card) (total : Z) (aces : nat) : Z * nat :=
  match hand with
  | [] => (total, aces)
  | (rank, _) :: rest =>
      if rank >? 10 then score_loop rest (total + 10) aces
      else if rank =? 1 then score_loop rest (total + 1) (S aces)
      else score_loop rest (total + rank) aces
  end.

(** The [while aces > 0] loop. *)
Fixpoint promote (total : Z) (aces : nat) : Z :=
  match aces with
  | O => total
  | S aces' =>
      if total + 10 <=? 21 then promote (total + 10) aces'
      else promote total aces'
  end.

Definition score_hand (hand : list card) : Z :=
  let '(total, aces) := score_loop hand 0 0 in
  promote total aces.

(** ** The game object *)

(** The three values [game_state] is ever assigned. *)
Inductive phase : Type := PLAYER_TURN | DEALER_TURN | DONE.

Definition phase_eqb (a b : phase) : bool :=
  match a, b with
  | PLAYER_TURN, PLAYER_TURN | DEALER_TURN, DEALER_TURN | DONE, DONE => true
  | _, _ => false
  end.

(** The attributes of [Game] that the round logic reads or writes. *)
Record Game : Type := mkGame {
  running : bool;
  deck : list card;
  player_hand : list card;
  dealer_hand : list card;
  round_over : bool;
  winner_text : string;
  game_state : phase
}.

(** [random.shuffle] reorders the list it is given; which order it picks is
    not determined by the program, so it is an argument of every function
    that may call it. *)
Definition shuffler : Type := list card -> list card.

Definition is_shuffle (sh : shuffler) : Prop :=
  forall l, Permutation (sh l) l.

(** [new_round]: the right-hand sides [[self.deck.pop(), self.deck.pop()]]
    are evaluated left to right. *)
Definition new_round (sh : shuffler) (g : Game) : result Game :=
  let d := sh make_deck in
  '(p1, d) <- pop d ;;
  '(p2, d) <- pop d ;;
  '(d1, d) <- pop d ;;
  '(d2, d) <- pop d ;;
  Ok {| running := running g;
        deck := d;
        player_hand := [p1; p2];
        dealer_hand := [d1; d2];
        round_over := false;
        winner_text := "";
        game_state := PLAYER_TURN |}.

(** ** Buttons and events *)

(** A button's [pygame.Rect(x, y, w, h)]. *)
Record Rect : Type := mkRect { left : Z; top : Z; width : Z; height : Z }.

(** [Button.is_clicked] is [self.rect.collidepoint(mouse_pos)]; pygame counts
    a point inside when it is on the left or top edge or strictly within,
    and outside when it is on the right or bottom edge. *)
Definition is_clicked (r : Rect) (mouse_pos : Z * Z) : bool :=
  let '(x, y) := mouse_pos in
  (left r <=? x) && (x <? left r + width r) &&
  (top r <=? y) && (y <? top r + height r).

Definition btn_hit : Rect := mkRect 100 500 100 40.
Definition btn_stand : Rect := mkRect 300 500 100 40.
Definition btn_restart : Rect := mkRect 500 500 100 40.

(** The events [handle_events] distinguishes: the window's close request, a
    mouse press with its button number and position, and anything else. *)
Inductive event : Type :=
| QUIT
| MOUSEBUTTONDOWN (button : Z) (pos : Z * Z)
| OTHER.

(** ** Attribute updates *)

Definition set_running (b : bool) (g : Game) : Game :=
  mkGame b (deck g) (player_hand g) (dealer_hand g)
         (round_over g) (winner_text g) (game_state g).

Definition set_deck (d : list card) (g : Game) : Game :=
  mkGame (running g) d (player_hand g) (dealer_hand g)
         (round_over g) (winner_text g) (game_state g).

Definition set_player_hand (h : list card) (g : Game) : Game :=
  mkGame (running g) (deck g) h (dealer_hand g)
         (round_over g) (winner_text g) (game_state g).

Definition set_dealer_hand (h : list card) (g : Game) : Game :=
  mkGame (running g) (deck g) (player_hand g) h
         (round_over g) (winner_text g) (game_state g).

Definition set_round_over (b : bool) (g : Game) : Game :=
  mkGame (running g) (deck g) (player_hand g) (dealer_hand g)
         b (winner_text g) (game_state g).

Definition set_winner_text (s : string) (g : Game) : Game :=
  mkGame (running g) (deck g) (player_hand g) (dealer_hand g)
         (round_over g) s (game_state g).

Definition set_game_state (p : phase) (g : Game) : Game :=
  mkGame (running g) (deck g) (player_hand g) (dealer_hand g)
         (round_over g) (winner_text g) p.

(** ** [handle_events] *)

(** The branch taken when the Hit button is clicked in the player's turn:
    [self.player_hand.append(self.deck.pop())], then the bust and 21 tests. *)
Definition hit (g : Game) : result Game :=
  '(c, d) <- pop (deck g) ;;
  let g := set_player_hand (player_hand g ++ [c]) (set_deck d g) in
  let player_total := score_hand (player_hand g) in
  if player_total >? 21 then
    Ok (set_winner_text "You busted! Dealer wins."
          (set_game_state DONE (set_round_over true g)))
  else if player_total =? 21 then
    Ok (set_winner_text "You hit 21! You win."
          (set_game_state DONE (set_round_over true g)))
  else Ok g.

(** The body of the [for event in pygame.event.get()] loop. *)
Definition handle_event (sh : shuffler) (g : Game) (ev : event) : result Game :=
  match ev with
  | QUIT => Ok (set_running false g)
  | MOUSEBUTTONDOWN button mouse_pos =>
      if button =? 1 then
        g <- (if is_clicked btn_restart mouse_pos then new_round sh g
              else Ok g) ;;
        if negb (round_over g) then
          if phase_eqb (game_state g) PLAYER_TURN then
            if is_clicked btn_hit mouse_pos then hit g
            else if is_clicked btn_stand mouse_pos then
              Ok (set_game_state DEALER_TURN g)
            else Ok g
          else Ok g
        else Ok g
      else Ok g
  | OTHER => Ok g
  end.

(** [handle_events] on the queue [pygame.event.get()] returned; each event
    comes with the shuffle that a restart triggered by it would perform. *)
Fixpoint handle_events (g : Game) (evs : list (shuffler * event)) : result Game :=
  match evs with
  | [] => Ok g
  | (sh, ev) :: rest => g <- handle_event sh g ev ;; handle_events g rest
  end.

(** ** [determine_winner] and [update] *)

Definition determine_winner (g : Game) : Game :=
  let player_score := score_hand (player_hand g) in
  let dealer_score := score_hand (dealer_hand g) in
  if dealer_score >? 21 then set_winner_text "Dealer busted! You win." g
  else if player_score >? dealer_score then set_winner_text "You win!" g
  else if player_score <? dealer_score then set_winner_text "Dealer wins." g
  else set_winner_text "It's a tie!" g.

Definition update (g : Game) : result Game :=
  if phase_eqb (game_state g) DEALER_TURN then
    let dealer_score := score_hand (dealer_hand g) in
    if dealer_score <? 17 then
      '(c, d) <- pop (deck g) ;;
      Ok (set_dealer_hand (dealer_hand g ++ [c]) (set_deck d g))
    else
      Ok (determine_winner (set_round_over true (set_game_state DONE g)))
  else Ok g.

(** One iteration of the loop of [run], without the drawing. *)
Definition frame (g : Game) (evs : list (shuffler * event)) : result Game :=
  g <- handle_events g evs ;; update g.

(** The attributes before [__init__] calls [new_round]: [running] is set,
    the round attributes do not exist yet and are all overwritten. *)
Definition blank : Game := mkGame true [] [] [] false "" PLAYER_TURN.

(** [Game()]: the constructor ends with [self.new_round()]. *)
Definition init (sh : shuffler) : result Game := new_round sh blank.

(** ** Reachable states *)

(** The states the running game can be in: the one the constructor leaves,
    and those after one more event or one more [update]. *)
Inductive reachable : Game -> Prop :=
| reach_init sh g :
    is_shuffle sh -> init sh = Ok g -> reachable g
| reach_event sh g ev g' :
    reachable g -> is_shuffle sh -> handle_event sh g ev = Ok g' ->
    reachable g'
| reach_update g g' :
    reachable g -> update g = Ok g' -> reachable g'.

(** The three actions of the interface, as the clicks that produce them. *)
Definition Hit (mouse_pos : Z * Z) : Prop := is_clicked btn_hit mouse_pos = true.
Definition Stand (mouse_pos : Z * Z) : Prop := is_clicked btn_stand mouse_pos = true.
Definition Restart (mouse_pos : Z * Z) : Prop := is_clicked btn_restart mouse_pos = true.

(** ** The specification's view of a hand *)

(** Ranks of a card of the data model: 1 (Ace) to 13 (King). *)
Definition valid_card (c : card) : Prop := 1 <= fst c <= 13.

(** The values a card may be counted at: an Ace 1 or 11, the faces 11, 12
    and 13 as 10, every other rank as itself. *)
Definition card_values (c : card) : list Z :=
  let rank := fst c in
  if rank =? 1 then [1; 11]
  else if (rank =? 11) || (rank =? 12) || (rank =? 13) then [10]
  else [rank].

(** Every total a hand can be counted at, one choice per card. *)
Fixpoint totals (hand : list card) : list Z :=
  match hand with
  | [] => [0]
  | c :: rest => flat_map (fun v => map (Z.add v) (totals rest)) (card_values c)
  end.

(** The total with faces capped at 10 and every Ace counted as 1. *)
Definition hard_total (hand : list card) : Z :=
  fold_right (fun c acc => Z.min (fst c) 10 + acc) 0 hand.

Definition is_ace (c : card) : bool := fst c =? 1.

Definition has_ace (hand : list card) : bool := existsb is_ace hand.

Definition count_aces (hand : list card) : nat := List.length (filter is_ace hand).

(** The one-promotion scorer: the hard total, plus 10 once when the hand has
    an Ace and the sum stays at most 21. *)
Definition score_simple (hand : list card) : Z :=
  let total := hard_total hand in
  if has_ace hand && (total + 10 <=? 21) then total + 10 else total.

(** The cards of a state, deck first. *)
Definition all_cards (g : Game) : list card :=
  deck g ++ player_hand g ++ dealer_hand g.

(** The shuffle that moves the first card to the end. *)
Definition rotate1 : shuffler :=
  fun l => match l with [] => [] | x :: r => r ++ [x] end.

(** The hand of the specification's second scenario. *)
Definition two_aces_nine : list card :=
  [(1, Spades); (1, Hearts); (9, Diamonds)].

(** Position of a suit in [suits], and the place [13 * suit + rank] of a
    card in the suit-major numbering of the pack. *)
Definition suit_index (s : suit) : Z :=
  match s with Clubs => 0 | Diamonds => 1 | Hearts => 2 | Spades => 3 end.

Definition card_index (c : card) : Z := 13 * suit_index (snd c) + fst c.

Definition suit_eq_dec (a b : suit) : {a = b} + {a <> b}.
Proof. decide equality. Defined.

Definition card_eq_dec (a b : card) : {a = b} + {a <> b}.
Proof. decide equality; [apply suit_eq_dec | apply Z.eq_dec]. Defined.

(** What a round must satisfy for play to go on without running out of
    cards: the 52 cards are all there, once each; [round_over] mirrors the
    phase; no winner text before the end; and the hands are short. *)
Definition round_inv (g : Game) : Prop :=
  Permutation (all_cards g) make_deck /\
  (round_over g = true <-> game_state g = DONE) /\
  (game_state g <> DONE -> winner_text g = "") /\
  (game_state g = PLAYER_TURN -> score_hand (player_hand g) <= 21) /\
  (List.length (player_hand g) <= 22)%nat /\
  (List.length (dealer_hand g) <= 17)%nat.

(** The shuffle that reverses the deck. *)
Definition reversed : shuffler := @rev card.

(** Clicks inside the three buttons. *)
Definition hit_pos : Z * Z := (150, 520).
Definition stand_pos : Z * Z := (350, 520).
Definition restart_pos : Z * Z := (550, 520).

(** The state the constructor leaves under a given shuffle. *)
Definition started (sh : shuffler) : Game :=
  match init sh with
  | Ok g => g
  | Error _ => blank
  end.

(** The state after the player stands on the opening deal. *)
Definition stood (sh : shuffler) : Game :=
  set_game_state DEALER_TURN (started sh).

(** The specification's fourth scenario: the player holds 9 and 2 and the
    next card of the deck is a 10. *)
Definition scenario4_state : Game :=
  mkGame true [(5, Clubs); (10, Hearts)]
         [(9, Clubs); (2, Diamonds)] [(7, Spades); (8, Spades)]
         false "" PLAYER_TURN.

(** The fifth scenario: dealer's turn, the dealer on 16 against the player's
    17, the next card of the deck a 2. *)
Definition scenario5_state : Game :=
  mkGame true [(4, Clubs); (2, Hearts)]
         [(10, Spades); (7, Hearts)] [(10, Clubs); (6, Diamonds)]
         false "" DEALER_TURN.

(** ** [card_to_string] *)

(** Python strings are kept as their UTF-8 bytes. *)

(** [str(n)] on an integer: its decimal numeral, with a minus sign when
    negative. *)
Definition str (n : Z) : string :=
  DecimalString.NilZero.string_of_int (Z.to_int n).

(** The suit strings of [make_deck]. *)
Definition suit_str (s : suit) : string :=
  match s with
  | Clubs => "♣"
  | Diamonds => "♦"
  | Hearts => "♥"
  | Spades => "♠"
  end.

(** The [if]/[elif] chain that sets [rank_str]. *)
Definition rank_str (rank : Z) : string :=
  if rank =? 1 then "A"
  else if rank =? 11 then "J"
  else if rank =? 12 then "Q"
  else if rank =? 13 then "K"
  else str rank.

Definition card_to_string (c : card) : string :=
  let '(rank, suit) := c in
  let rank_str := rank_str rank in
  (rank_str ++ suit_str suit)%string.

(** ** [settings.py] *)

Definition SCREEN_WIDTH : Z := 800.
Definition SCREEN_HEIGHT : Z := 600.
Definition FPS : Z := 60.

Definition color : Type := (Z * Z * Z)%type.
Definition WHITE : color := (255, 255, 255).
Definition BLACK : color := (0, 0, 0).
Definition RED : color := (255, 0, 0).
Definition GREEN : color := (0, 255, 0).
Definition GRAY : color := (200, 200, 200).

(** ** [draw] *)

(** The two fonts of [Game.__init__]. *)
Inductive font : Type := font_large | font_small.

(** A button as [Game.__init__] builds it: rectangle, label and colours
    (all three use [font_small]). *)
Record Button : Type := mkButton {
  rect : Rect;
  text : string;
  bg_color : color;
  text_color : color
}.

Definition button_hit : Button := mkButton btn_hit "Hit" GREEN BLACK.
Definition button_stand : Button := mkButton btn_stand "Stand" GREEN BLACK.
Definition button_restart : Button := mkButton btn_restart "Restart" GRAY BLACK.

(** What one call of [draw] sends to the screen, in order: the background
    fill, a text rendered in a font and colour and blitted at [(x, y)], a
    button (its rectangle and its centred label), and the final flip. *)
Inductive draw_op : Type :=
| op_fill (c : color)
| op_text (s : string) (f : font) (c : color) (x y : Z)
| op_button (b : Button)
| op_flip.

(** [draw_text(text, x, y, font=None, color=BLACK)]. *)
Definition draw_text (s : string) (x y : Z) (f : option font) (c : color) : draw_op :=
  let f := match f with None => font_small | Some f => f end in
  op_text s f c x y.

(** [l[0]]: [IndexError] on the empty list. *)
Definition item0 {A : Type} (l : list A) : result A :=
  match l with
  | [] => Error IndexError
  | x :: _ => Ok x
  end.

(** [len(l)]. *)
Definition len {A : Type} (l : list A) : Z := Z.of_nat (List.length l).

(** [[x] * n]: no element when [n] is not positive. *)
Definition times {A : Type} (x : A) (n : Z) : list A := repeat x (Z.to_nat n).

(** [sep.join(l)]. *)
Definition join (sep : string) (l : list string) : string := String.concat sep l.

(** The dealer's cards as shown and the score display: while it is the
    player's turn and the round is not over, only the first card, the others
    as [??], and no score. *)
Definition shown_dealer (g : Game) : result (list string * string) :=
  if phase_eqb (game_state g) PLAYER_TURN && negb (round_over g) then
    first <- item0 (dealer_hand g) ;;
    let shown_dealer_cards := [card_to_string first] in
    let shown_dealer_cards :=
      if len (dealer_hand g) >? 1
      then shown_dealer_cards ++ times "??" (len (dealer_hand g) - 1)
      else shown_dealer_cards in
    Ok (shown_dealer_cards, "")
  else
    Ok (map card_to_string (dealer_hand g),
        ("(score: " ++ str (score_hand (dealer_hand g)) ++ ")")%string).

(** The closing message of [draw]. *)
Definition status_ops (g : Game) : list draw_op :=
  if round_over g then
    [draw_text (winner_text g) 20 300 None RED;
     draw_text "Click 'Restart' to play again." 20 340 None BLACK]
  else if phase_eqb (game_state g) PLAYER_TURN then
    [draw_text "Your turn! Click 'Hit' or 'Stand'." 20 300 None BLACK]
  else if phase_eqb (game_state g) DEALER_TURN then
    [draw_text "Dealer's turn... (please wait)" 20 300 None BLACK]
  else [].

(** [draw]: the operations of one frame, or the [IndexError] of
    [self.dealer_hand[0]]. *)
Definition draw (g : Game) : result (list draw_op) :=
  let player_cards_str := join ", " (map card_to_string (player_hand g)) in
  let player_score := score_hand (player_hand g) in
  '(shown_dealer_cards, dealer_score_display) <- shown_dealer g ;;
  let dealer_cards_str := join ", " shown_dealer_cards in
  Ok ([op_fill WHITE;
       draw_text "Blackjack!" 20 20 (Some font_large) BLACK;
       draw_text ("Your Hand: " ++ player_cards_str ++ " (score: "
                  ++ str player_score ++ ")")%string 20 100 None BLACK;
       draw_text ("Dealer Hand: " ++ dealer_cards_str ++ " "
                  ++ dealer_score_display)%string 20 200 None BLACK;
       op_button button_hit;
       op_button button_stand;
       op_button button_restart]
      ++ status_ops g ++ [op_flip]).

(** ** [run] *)

(** The main loop on the event queues of the coming frames: while [running]
    is set, one frame handles its queue, updates and draws.  The result is
    the last state and the screens drawn; the loop is followed as far as the
    queues given. *)
Fixpoint run (g : Game) (frames : list (list (shuffler * event)))
  : result (Game * list (list draw_op)) :=
  if running g then
    match frames with
    | [] => Ok (g, [])
    | evs :: rest =>
        g <- handle_events g evs ;;
        g <- update g ;;
        screen <- draw g ;;
        '(g', screens) <- run g rest ;;
        Ok (g', screen :: screens)
    end
  else Ok (g, []).

(** [n] frames without events: [n] calls of [update]. *)
Fixpoint updates (n : nat) (g : Game) : result Game :=
  match n with
  | O => Ok g
  | S n' => g <- update g ;; updates n' g
  end.

Definition is_quit (ev : event) : bool :=
  match ev with QUIT => true | _ => false end.

(** A left click on the Restart button. *)
Definition restart_click (ev : event) : Prop :=
  exists mouse_pos, ev = MOUSEBUTTONDOWN 1 mouse_pos /\ Restart mouse_pos.

(** The order of the phases within a round. *)
Definition phase_rank (p : phase) : Z :=
  match p with PLAYER_TURN => 0 | DEALER_TURN => 1 | DONE => 2 end.

(** What the winner text of a finished round says about the scores. *)
Definition outcome_ok (g : Game) : Prop :=
  let p := score_hand (player_hand g) in
  let d := score_hand (dealer_hand g) in
  (winner_text g = "You busted! Dealer wins." /\ 21 < p) \/
  (winner_text g = "You hit 21! You win." /\ p = 21) \/
  (winner_text g = "Dealer busted! You win." /\ 21 < d <= 26 /\ p <= 21) \/
  (winner_text g = "You win!" /\ 17 <= d /\ d < p /\ p <= 21) \/
  (winner_text g = "Dealer wins." /\ 17 <= d /\ p < d /\ d <= 21) \/
  (winner_text g = "It's a tie!" /\ 17 <= d /\ p = d /\ d <= 21).

(** Further facts kept by play: both hands hold at least the two cards
    dealt, the dealer never passes 26, a player who stood is within 21, and
    a finished round has a text that matches the scores. *)
Definition play_inv (g : Game) : Prop :=
  (2 <= List.length (player_hand g))%nat /\
  (2 <= List.length (dealer_hand g))%nat /\
  score_hand (dealer_hand g) <= 26 /\
  (game_state g = DEALER_TURN -> score_hand (player_hand g) <= 21) /\
  (game_state g = DONE -> outcome_ok g).

(** The events of a queue other than [QUIT]. *)
Definition without_quit (evs : list (shuffler * event)) : list (shuffler * event) :=
  filter (fun e => negb (is_quit (snd e))) evs.

(** A finished round: the opening deal of Ace and King, then a Hit that
    draws a 10. *)
Definition finished : Game :=
  match handle_event rotate1 (started rotate1) (MOUSEBUTTONDOWN 1 hit_pos) with
  | Ok g => g
  | Error _ => blank
  end.

(** Discharges [Forall valid_card] on a literal hand. *)
Ltac valid_hand :=
  repeat (apply Forall_cons; [unfold valid_card; cbn; lia|]); apply Forall_nil.

(** * Scoring *)

Example scenario1 : score_hand [(1, Spades); (13, Hearts)] = 21.
Proof. reflexivity. Qed.

Example scenario2 : score_hand [(1, Spades); (1, Hearts); (9, Diamonds)] = 21.
Proof. reflexivity. Qed.

Example scenario3 : score_hand [(10, Clubs); (10, Diamonds); (5, Hearts)] = 25.
Proof. reflexivity. Qed.

Lemma count_aces_cons (c : card) (rest : list card) :
  count_aces (c :: rest) =
  ((if is_ace c then 1 else 0) + count_aces rest)%nat.
Proof.
  unfold count_aces. simpl. destruct (is_ace c); reflexivity.
Qed.

Lemma hard_total_cons (c : card) (rest : list card) :
  hard_total (c :: rest) = Z.min (fst c) 10 + hard_total rest.
Proof. reflexivity. Qed.

Lemma score_loop_acc (hand : list card) :
  forall total aces,
    score_loop hand total aces =
    (total + hard_total hand, (aces + count_aces hand)%nat).
Proof.
  induction hand as [|[rank s] rest IH]; intros total aces.
  - simpl. f_equal; [lia | unfold count_aces; simpl; lia].
  - rewrite count_aces_cons, hard_total_cons.
    cbn [score_loop]. unfold is_ace. cbn [fst].
    destruct (rank >? 10) eqn:Hface.
    + assert ((rank =? 1) = false) as -> by lia.
      rewrite IH. f_equal; lia.
    + destruct (rank =? 1) eqn:Hace; rewrite IH; f_equal; lia.
Qed.

Lemma score_hand_eq (hand : list card) :
  score_hand hand = promote (hard_total hand) (count_aces hand).
Proof.
  unfold score_hand. rewrite score_loop_acc. reflexivity.
Qed.

Lemma promote_over (aces : nat) :
  forall total, 21 < total + 10 -> promote total aces = total.
Proof.
  induction aces as [|n IH]; intros total H; simpl; [reflexivity|].
  assert ((total + 10 <=? 21) = false) as -> by lia.
  now apply IH.
Qed.

(** What the promotion loop computes: some number [k] of promotions, at most
    the number of Aces, never passing 21 from below, and at least as many as
    any other number of promotions that stays within 21. *)
Lemma promote_spec (aces : nat) :
  forall total,
    exists k : nat,
      (k <= aces)%nat /\
      promote total aces = total + 10 * Z.of_nat k /\
      (total <= 21 -> promote total aces <= 21) /\
      (forall j : nat, (j <= aces)%nat -> total + 10 * Z.of_nat j <= 21 ->
                       total + 10 * Z.of_nat j <= promote total aces).
Proof.
  induction aces as [|n IH]; intros total.
  - exists 0%nat. cbn [promote]. split; [lia|]. split; [lia|].
    split; [lia|]. intros j Hj _. assert (j = 0%nat) as -> by lia. lia.
  - cbn [promote]. destruct (total + 10 <=? 21) eqn:Hfit.
    + destruct (IH (total + 10)) as (k & Hk & Heq & Hle & Hmax).
      exists (S k). split; [lia|]. split; [lia|]. split; [lia|].
      intros j Hj Hj21. destruct j as [|j'].
      * lia.
      * specialize (Hmax j'). lia.
    + destruct (IH total) as (k & Hk & Heq & Hle & Hmax).
      exists k. split; [lia|]. split; [lia|]. split; [lia|].
      intros j Hj Hj21. destruct j as [|j']; lia.
Qed.

Lemma card_values_cases (c : card) :
  valid_card c ->
  (is_ace c = true /\ card_values c = [1; 11] /\ Z.min (fst c) 10 = 1) \/
  (is_ace c = false /\ card_values c = [Z.min (fst c) 10]).
Proof.
  unfold valid_card, is_ace, card_values. intros Hc.
  destruct (fst c =? 1) eqn:Hace.
  - left. repeat split. lia.
  - right. split; [reflexivity|].
    destruct ((fst c =? 11) || (fst c =? 12) || (fst c =? 13)) eqn:Hface.
    + f_equal. lia.
    + f_equal. lia.
Qed.

(** The totals of a hand are its hard total plus 10 for each Ace counted
    high, for any number of Aces up to those it holds. *)
Lemma totals_spec (hand : list card) :
  Forall valid_card hand ->
  forall x, In x (totals hand) <->
            exists k : nat, (k <= count_aces hand)%nat /\
                            x = hard_total hand + 10 * Z.of_nat k.
Proof.
  induction 1 as [|c rest Hc Hrest IH]; intros x.
  - cbn [totals In]. change (count_aces []) with 0%nat.
    change (hard_total []) with 0. split.
    + intros [<-|[]]. exists 0%nat. split; lia.
    + intros (k & Hk & ->). left. lia.
  - cbn [totals]. rewrite in_flat_map, count_aces_cons, hard_total_cons.
    destruct (card_values_cases c Hc) as [(-> & -> & ->)|(-> & ->)]; split.
    + intros (v & Hv & Hx). apply in_map_iff in Hx as (t & <- & Ht).
      apply IH in Ht as (k & Hk & ->).
      destruct Hv as [<-|[<-|[]]].
      * exists k. split; lia.
      * exists (S k). split; lia.
    + intros (k & Hk & ->). destruct k as [|k'].
      * exists 1. split; [now left|]. apply in_map_iff.
        exists (hard_total rest). split; [lia|].
        apply IH. exists 0%nat. split; lia.
      * exists 11. split; [right; now left|]. apply in_map_iff.
        exists (hard_total rest + 10 * Z.of_nat k'). split; [lia|].
        apply IH. exists k'. split; lia.
    + intros (v & [<-|[]] & Hx). apply in_map_iff in Hx as (t & <- & Ht).
      apply IH in Ht as (k & Hk & ->). exists k. split; lia.
    + intros (k & Hk & ->). exists (Z.min (fst c) 10). split; [now left|].
      apply in_map_iff. exists (hard_total rest + 10 * Z.of_nat k).
      split; [lia|]. apply IH. exists k. split; lia.
Qed.

(** On cards of rank at least 1 every Ace contributes 1 to the hard total,
    and every other card at least as much. *)
Lemma count_aces_le_hard_total (hand : list card) :
  Forall valid_card hand ->
  Z.of_nat (count_aces hand) <= hard_total hand.
Proof.
  induction 1 as [|c rest Hc Hrest IH].
  - unfold count_aces, hard_total. simpl. lia.
  - rewrite count_aces_cons, hard_total_cons. unfold valid_card in Hc.
    destruct (is_ace c); lia.
Qed.

Lemma length_le_hard_total (hand : list card) :
  Forall valid_card hand ->
  Z.of_nat (List.length hand) <= hard_total hand.
Proof.
  induction 1 as [|c rest Hc Hrest IH].
  - unfold hard_total. simpl. lia.
  - rewrite hard_total_cons. unfold valid_card in Hc. cbn [List.length]. lia.
Qed.

Lemma has_ace_count (hand : list card) :
  has_ace hand = negb (Nat.eqb (count_aces hand) 0).
Proof.
  induction hand as [|c rest IH]; [reflexivity|].
  rewrite count_aces_cons. unfold has_ace in *. cbn [existsb]. rewrite IH.
  destruct (is_ace c); reflexivity.
Qed.

Lemma hard_total_le_score (hand : list card) :
  hard_total hand <= score_hand hand.
Proof.
  rewrite score_hand_eq.
  destruct (promote_spec (count_aces hand) (hard_total hand))
    as (k & _ & -> & _). lia.
Qed.

(** A hand of valid cards scores at least its number of cards. *)
Lemma length_le_score (hand : list card) :
  Forall valid_card hand ->
  Z.of_nat (List.length hand) <= score_hand hand.
Proof.
  intros H. pose proof (length_le_hard_total hand H).
  pose proof (hard_total_le_score hand). lia.
Qed.

(** C1.  For every hand of cards with rank in 1..13, [score_hand] returns a
    total the hand can be counted at; when counting every Ace as 1 stays
    within 21 it is the largest such total that is at most 21; when even that
    exceeds 21 it is the total with every Ace as 1, which is the least total
    of all; and the empty hand scores 0.  [score_hand] is a total function,
    so it returns for every hand. *)
Theorem score_hand_best (hand : list card) :
  Forall valid_card hand ->
  In (score_hand hand) (totals hand) /\
  (hard_total hand <= 21 ->
   score_hand hand <= 21 /\
   forall t, In t (totals hand) -> t <= 21 -> t <= score_hand hand) /\
  (21 < hard_total hand -> score_hand hand = hard_total hand) /\
  (In (hard_total hand) (totals hand) /\
   forall t, In t (totals hand) -> hard_total hand <= t) /\
  (hand = [] -> score_hand hand = 0).
Proof.
  intros Hvalid. pose proof (totals_spec hand Hvalid) as Htot.
  rewrite score_hand_eq.
  destruct (promote_spec (count_aces hand) (hard_total hand))
    as (k & Hk & Heq & Hle & Hmax).
  split; [|split; [|split; [|split]]].
  - apply Htot. exists k. split; [exact Hk | exact Heq].
  - intros Hlow. split; [now apply Hle|].
    intros t Ht Ht21. apply Htot in Ht as (j & Hj & ->).
    now apply Hmax.
  - intros Hhigh. apply promote_over. lia.
  - split.
    + apply Htot. exists 0%nat. split; lia.
    + intros t Ht. apply Htot in Ht as (j & Hj & ->). lia.
  - intros ->. reflexivity.
Qed.

Lemma two_aces_nine_valid : Forall valid_card two_aces_nine.
Proof. unfold two_aces_nine. valid_hand. Qed.

Lemma score_hand_best_witness :
  Forall valid_card two_aces_nine /\
  In (score_hand two_aces_nine) (totals two_aces_nine) /\
  (hard_total two_aces_nine <= 21 ->
   score_hand two_aces_nine <= 21 /\
   forall t, In t (totals two_aces_nine) -> t <= 21 ->
             t <= score_hand two_aces_nine).
Proof.
  split; [exact two_aces_nine_valid|].
  split; [exact (proj1 (score_hand_best two_aces_nine two_aces_nine_valid))|].
  exact (proj1 (proj2 (score_hand_best two_aces_nine two_aces_nine_valid))).
Defined.

(** C10.  On every hand of cards with rank in 1..13, [score_hand] equals
    the one-promotion scorer [score_simple]: the loop over the Aces adds 10
    at most once, so the score is the hard total or the hard total plus 10. *)
Theorem score_hand_one_promotion (hand : list card) :
  Forall valid_card hand ->
  score_hand hand = score_simple hand /\
  (score_hand hand = hard_total hand \/
   score_hand hand = hard_total hand + 10).
Proof.
  intros Hvalid. pose proof (count_aces_le_hard_total hand Hvalid) as Hcnt.
  assert (Hsimple : score_hand hand = score_simple hand).
  { rewrite score_hand_eq. unfold score_simple. rewrite has_ace_count.
    destruct (count_aces hand) as [|n]; [reflexivity|].
    cbn [Nat.eqb negb andb promote].
    destruct (hard_total hand + 10 <=? 21) eqn:Hfit; [|now apply promote_over; lia].
    destruct n as [|n']; [reflexivity|].
    apply promote_over. lia. }
  split; [exact Hsimple|].
  rewrite Hsimple. unfold score_simple.
  destruct (has_ace hand && (hard_total hand + 10 <=? 21)); [now right | now left].
Qed.

Lemma score_hand_one_promotion_witness :
  Forall valid_card two_aces_nine /\
  score_hand two_aces_nine = score_simple two_aces_nine.
Proof.
  split; [exact two_aces_nine_valid|].
  exact (proj1 (score_hand_one_promotion two_aces_nine two_aces_nine_valid)).
Defined.

(** Ranks below 1 do not occur in a deck; with them the loop can promote
    twice, which is why the equality is stated for cards of the data model. *)
Remark score_hand_two_promotions :
  score_hand [(1, Spades); (1, Hearts); (-1, Diamonds)] = 21 /\
  score_simple [(1, Spades); (1, Hearts); (-1, Diamonds)] = 11.
Proof. split; reflexivity. Qed.

(** * The deck *)

Lemma in_range (lo hi x : Z) : In x (range lo hi) <-> lo <= x < hi.
Proof.
  unfold range. rewrite in_map_iff. split.
  - intros (i & <- & Hi). apply in_seq in Hi. lia.
  - intros Hx. exists (Z.to_nat (x - lo)). split; [lia|].
    apply in_seq. lia.
Qed.

Lemma range_NoDup (lo hi : Z) : NoDup (range lo hi).
Proof.
  unfold range. apply Injective_map_NoDup.
  - intros a b Hab. lia.
  - apply seq_NoDup.
Qed.

Lemma in_make_deck (rank : Z) (s : suit) :
  In (rank, s) make_deck <-> 1 <= rank <= 13.
Proof.
  unfold make_deck. rewrite in_flat_map. split.
  - intros (s' & _ & Hin). apply in_map_iff in Hin as (r & Heq & Hr).
    apply in_range in Hr. inversion Heq; subst. lia.
  - intros Hr. exists s. split.
    + destruct s; unfold suits; simpl; tauto.
    + apply in_map_iff. exists rank. split; [reflexivity|].
      apply in_range. lia.
Qed.

Lemma make_deck_NoDup : NoDup make_deck.
Proof.
  apply NoDup_map_inv with (f := card_index).
  replace (map card_index make_deck) with (range 1 53) by reflexivity.
  apply range_NoDup.
Qed.

Lemma make_deck_valid : Forall valid_card make_deck.
Proof.
  apply Forall_forall. intros [rank s] Hin.
  apply in_make_deck in Hin. exact Hin.
Qed.

Lemma make_deck_length : List.length make_deck = 52%nat.
Proof. reflexivity. Qed.

(** C5.  [make_deck] returns 52 cards without repetition; a card is in it
    exactly when its rank is in 1..13, whatever its suit, and then it occurs
    once; the order is fixed: suit by suit in the order of [suits], ranks
    ascending within a suit. *)
Theorem make_deck_complete :
  List.length make_deck = 52%nat /\
  NoDup make_deck /\
  (forall rank s, In (rank, s) make_deck <-> 1 <= rank <= 13) /\
  (forall rank s, 1 <= rank <= 13 ->
                  count_occ card_eq_dec make_deck (rank, s) = 1%nat) /\
  (forall i j : nat, (i < 4)%nat -> (j < 13)%nat ->
     nth_error make_deck (13 * i + j) =
     Some (Z.of_nat j + 1, nth i suits Clubs)).
Proof.
  split; [exact make_deck_length|].
  split; [exact make_deck_NoDup|].
  split; [exact in_make_deck|].
  split.
  - intros rank s Hr.
    apply (proj1 (NoDup_count_occ' card_eq_dec make_deck) make_deck_NoDup).
    now apply in_make_deck.
  - intros i j Hi Hj.
    do 4 (destruct i as [|i]; [do 13 (destruct j as [|j]; [reflexivity|]); lia|]).
    lia.
Qed.

Lemma make_deck_complete_witness :
  count_occ card_eq_dec make_deck (1, Spades) = 1%nat /\
  nth_error make_deck 51 = Some (13, Spades).
Proof.
  destruct make_deck_complete as (_ & _ & _ & Hocc & Hnth).
  split.
  - apply Hocc. lia.
  - apply (Hnth 3%nat 12%nat); lia.
Defined.

(** * Drawing *)

Lemma pop_snoc {A : Type} (d : list A) (c : A) : pop (d ++ [c]) = Ok (c, d).
Proof.
  unfold pop. rewrite rev_app_distr. cbn [rev app].
  now rewrite rev_involutive.
Qed.

Lemma pop_nil {A : Type} : pop (@nil A) = Error IndexError.
Proof. reflexivity. Qed.

Lemma pop_nonempty {A : Type} (l : list A) :
  l <> [] -> exists d c, l = d ++ [c] /\ pop l = Ok (c, d).
Proof.
  intros Hl. destruct (exists_last Hl) as (d & c & ->).
  exists d, c. split; [reflexivity | apply pop_snoc].
Qed.

Lemma pop_Ok {A : Type} (l d : list A) (c : A) :
  pop l = Ok (c, d) -> l = d ++ [c].
Proof.
  destruct l as [|x l'] using rev_ind.
  - discriminate.
  - rewrite pop_snoc. now intros [= -> ->].
Qed.

(** The three buttons do not overlap. *)
Lemma Hit_not_Restart (mouse_pos : Z * Z) :
  Hit mouse_pos -> is_clicked btn_restart mouse_pos = false.
Proof.
  unfold Hit, is_clicked, btn_hit, btn_restart. destruct mouse_pos as [x y].
  cbn [left top width height]. lia.
Qed.

Lemma Stand_not_Restart (mouse_pos : Z * Z) :
  Stand mouse_pos -> is_clicked btn_restart mouse_pos = false.
Proof.
  unfold Stand, is_clicked, btn_stand, btn_restart. destruct mouse_pos as [x y].
  cbn [left top width height]. lia.
Qed.

Lemma Restart_not_Hit (mouse_pos : Z * Z) :
  Restart mouse_pos -> is_clicked btn_hit mouse_pos = false.
Proof.
  unfold Restart, is_clicked, btn_hit, btn_restart. destruct mouse_pos as [x y].
  cbn [left top width height]. lia.
Qed.

Lemma Restart_not_Stand (mouse_pos : Z * Z) :
  Restart mouse_pos -> is_clicked btn_stand mouse_pos = false.
Proof.
  unfold Restart, is_clicked, btn_stand, btn_restart. destruct mouse_pos as [x y].
  cbn [left top width height]. lia.
Qed.

(** A left click on Hit in a running player's turn is the [hit] branch. *)
Lemma handle_event_Hit (sh : shuffler) (g : Game) (mouse_pos : Z * Z) :
  Hit mouse_pos -> round_over g = false -> game_state g = PLAYER_TURN ->
  handle_event sh g (MOUSEBUTTONDOWN 1 mouse_pos) = hit g.
Proof.
  intros Hhit Hover Hphase. cbn [handle_event].
  change (1 =? 1) with true. cbv iota.
  rewrite (Hit_not_Restart _ Hhit). cbn [bind].
  rewrite Hover, Hphase. cbn [negb phase_eqb].
  unfold Hit in Hhit. now rewrite Hhit.
Qed.

(** * Clicks outside the player's turn *)

(** C4.  In every state whose phase is not [PLAYER_TURN], a left click on
    the Hit or the Stand button leaves the whole state as it was. *)
Theorem hit_stand_ignored (sh : shuffler) (g : Game) (mouse_pos : Z * Z) :
  game_state g <> PLAYER_TURN ->
  Hit mouse_pos \/ Stand mouse_pos ->
  handle_event sh g (MOUSEBUTTONDOWN 1 mouse_pos) = Ok g.
Proof.
  intros Hphase Hclick. cbn [handle_event].
  change (1 =? 1) with true. cbv iota.
  assert (is_clicked btn_restart mouse_pos = false) as ->
    by (destruct Hclick; [now apply Hit_not_Restart | now apply Stand_not_Restart]).
  cbn [bind].
  destruct (round_over g); cbn [negb]; [reflexivity|].
  destruct (game_state g); cbn [phase_eqb]; [contradiction | reflexivity..].
Qed.

Lemma hit_stand_ignored_witness :
  handle_event rotate1 (stood reversed) (MOUSEBUTTONDOWN 1 hit_pos) = Ok (stood reversed) /\
  handle_event rotate1 (stood reversed) (MOUSEBUTTONDOWN 1 stand_pos) = Ok (stood reversed).
Proof.
  split.
  - apply hit_stand_ignored; [discriminate | left; reflexivity].
  - apply hit_stand_ignored; [discriminate | right; reflexivity].
Defined.

(** * Starting a round *)

Lemma last_four {A : Type} (l : list A) :
  (4 <= List.length l)%nat ->
  exists d a b c e, l = d ++ [a; b; c; e].
Proof.
  intros Hlen. rewrite <- (rev_involutive l).
  rewrite <- length_rev in Hlen.
  destruct (rev l) as [|e [|c [|b [|a r]]]]; cbn [List.length] in Hlen; try lia.
  exists (rev r), a, b, c, e. cbn [rev]. now rewrite <- !app_assoc.
Qed.

Lemma is_shuffle_rotate1 : is_shuffle rotate1.
Proof.
  intros [|x r]; [constructor|].
  cbn [rotate1]. apply Permutation_sym, Permutation_cons_append.
Qed.

Lemma is_shuffle_reversed : is_shuffle reversed.
Proof. intros l. apply Permutation_sym, Permutation_rev. Qed.

(** With a shuffle that only reorders, [new_round] succeeds: the player gets
    the last and the second last card of the shuffled deck, the dealer the
    two before them. *)
Lemma new_round_Ok (sh : shuffler) (g : Game) :
  is_shuffle sh ->
  exists d d2 d1 p2 p1,
    sh make_deck = d ++ [d2; d1; p2; p1] /\
    new_round sh g =
    Ok (mkGame (running g) d [p1; p2] [d1; d2] false "" PLAYER_TURN).
Proof.
  intros Hsh.
  assert (Hlen : List.length (sh make_deck) = 52%nat)
    by (rewrite (Permutation_length (Hsh make_deck)); reflexivity).
  destruct (last_four (sh make_deck)) as (d & d2 & d1 & p2 & p1 & Heq); [lia|].
  exists d, d2, d1, p2, p1. split; [exact Heq|].
  unfold new_round. rewrite Heq.
  change (d ++ [d2; d1; p2; p1]) with (d ++ [d2] ++ [d1] ++ [p2] ++ [p1]).
  rewrite !app_assoc.
  rewrite pop_snoc. cbn [bind]. rewrite pop_snoc. cbn [bind].
  rewrite pop_snoc. cbn [bind]. rewrite pop_snoc. cbn [bind].
  reflexivity.
Qed.

Lemma score_le_21 (hand : list card) :
  hard_total hand <= 21 -> score_hand hand <= 21.
Proof.
  intros H. rewrite score_hand_eq.
  destruct (promote_spec (count_aces hand) (hard_total hand))
    as (_ & _ & _ & Hle & _). now apply Hle.
Qed.

Lemma new_round_inv (sh : shuffler) (g g' : Game) :
  is_shuffle sh -> new_round sh g = Ok g' -> round_inv g'.
Proof.
  intros Hsh Hnew.
  destruct (new_round_Ok sh g Hsh) as (d & d2 & d1 & p2 & p1 & Heq & Hres).
  rewrite Hres in Hnew. injection Hnew as <-.
  unfold round_inv, all_cards.
  cbn [deck player_hand dealer_hand round_over winner_text game_state].
  split; [|split; [|split; [|split; [|split]]]].
  - rewrite <- (Hsh make_deck), Heq.
    apply Permutation_app_head.
    change ([p1; p2] ++ [d1; d2]) with (rev [d2; d1; p2; p1]).
    apply Permutation_sym, Permutation_rev.
  - split; discriminate.
  - reflexivity.
  - intros _. apply score_le_21.
    unfold hard_total. cbn [fold_right]. lia.
  - cbn [List.length]. lia.
  - cbn [List.length]. lia.
Qed.

(** * The invariant of play *)

Lemma perm_draw_player (d p dl : list card) (c : card) :
  Permutation (d ++ (p ++ [c]) ++ dl) ((d ++ [c]) ++ p ++ dl).
Proof.
  rewrite <- !app_assoc. apply Permutation_app_head.
  cbn [app]. apply Permutation_sym, Permutation_middle.
Qed.

Lemma perm_draw_dealer (d p dl : list card) (c : card) :
  Permutation (d ++ p ++ (dl ++ [c])) ((d ++ [c]) ++ p ++ dl).
Proof.
  rewrite <- !app_assoc. apply Permutation_app_head.
  rewrite (app_assoc p dl [c]). apply (Permutation_app_comm (p ++ dl) [c]).
Qed.

Lemma round_inv_valid (g : Game) :
  round_inv g ->
  Forall valid_card (deck g) /\
  Forall valid_card (player_hand g) /\
  Forall valid_card (dealer_hand g).
Proof.
  intros (Hperm & _).
  assert (Hall : Forall valid_card (all_cards g)).
  { apply Forall_forall. intros c Hc.
    apply (Permutation_in _ Hperm) in Hc.
    revert c Hc. apply Forall_forall, make_deck_valid. }
  unfold all_cards in Hall.
  apply Forall_app in Hall as (Hd & Hrest).
  apply Forall_app in Hrest as (Hp & Hdl). auto.
Qed.

(** Under the invariant at least 13 cards are left in the deck. *)
Lemma round_inv_deck (g : Game) :
  round_inv g -> (13 <= List.length (deck g))%nat.
Proof.
  intros (Hperm & _ & _ & _ & Hp & Hdl).
  apply Permutation_length in Hperm.
  unfold all_cards in Hperm. rewrite !length_app in Hperm.
  rewrite make_deck_length in Hperm. lia.
Qed.

Lemma round_inv_draw (g : Game) :
  round_inv g -> exists d c, deck g = d ++ [c] /\ pop (deck g) = Ok (c, d).
Proof.
  intros Hinv. apply pop_nonempty. intros Hnil.
  apply round_inv_deck in Hinv. rewrite Hnil in Hinv. cbn in Hinv. lia.
Qed.

(** What [hit] does when the deck ends with [c]. *)
Lemma hit_spec (g : Game) (d : list card) (c : card) :
  deck g = d ++ [c] ->
  exists g',
    hit g = Ok g' /\
    running g' = running g /\
    deck g' = d /\
    player_hand g' = player_hand g ++ [c] /\
    dealer_hand g' = dealer_hand g /\
    (21 < score_hand (player_hand g ++ [c]) ->
     game_state g' = DONE /\ round_over g' = true /\
     winner_text g' = "You busted! Dealer wins.") /\
    (score_hand (player_hand g ++ [c]) = 21 ->
     game_state g' = DONE /\ round_over g' = true /\
     winner_text g' = "You hit 21! You win.") /\
    (score_hand (player_hand g ++ [c]) < 21 ->
     game_state g' = game_state g /\ round_over g' = round_over g /\
     winner_text g' = winner_text g).
Proof.
  intros Hdeck. unfold hit. rewrite Hdeck, pop_snoc. cbn [bind].
  cbn [player_hand set_player_hand].
  destruct (score_hand (player_hand g ++ [c]) >? 21) eqn:Hbust;
    [|destruct (score_hand (player_hand g ++ [c]) =? 21) eqn:H21];
    eexists; (split; [reflexivity|]); cbn;
    repeat split; intros; try reflexivity; lia.
Qed.

Lemma determine_winner_frame (g : Game) :
  running (determine_winner g) = running g /\
  deck (determine_winner g) = deck g /\
  player_hand (determine_winner g) = player_hand g /\
  dealer_hand (determine_winner g) = dealer_hand g /\
  round_over (determine_winner g) = round_over g /\
  game_state (determine_winner g) = game_state g.
Proof.
  unfold determine_winner.
  destruct (score_hand (dealer_hand g) >? 21);
    [|destruct (score_hand (player_hand g) >? score_hand (dealer_hand g));
      [|destruct (score_hand (player_hand g) <? score_hand (dealer_hand g))]];
    repeat split.
Qed.

Lemma update_draw (g : Game) (d : list card) (c : card) :
  game_state g = DEALER_TURN -> score_hand (dealer_hand g) < 17 ->
  deck g = d ++ [c] ->
  update g = Ok (set_dealer_hand (dealer_hand g ++ [c]) (set_deck d g)).
Proof.
  intros Hphase Hscore Hdeck. unfold update. rewrite Hphase. cbn [phase_eqb].
  assert ((score_hand (dealer_hand g) <? 17) = true) as -> by lia.
  rewrite Hdeck, pop_snoc. reflexivity.
Qed.

Lemma update_stand (g : Game) :
  game_state g = DEALER_TURN -> 17 <= score_hand (dealer_hand g) ->
  update g = Ok (determine_winner (set_round_over true (set_game_state DONE g))).
Proof.
  intros Hphase Hscore. unfold update. rewrite Hphase. cbn [phase_eqb].
  assert ((score_hand (dealer_hand g) <? 17) = false) as -> by lia.
  reflexivity.
Qed.

Lemma update_idle (g : Game) :
  game_state g <> DEALER_TURN -> update g = Ok g.
Proof.
  intros Hphase. unfold update.
  destruct (game_state g); cbn [phase_eqb]; [reflexivity | contradiction | reflexivity].
Qed.

(** C7.  A draw takes the card at the end of the deck.  [pop] on
    [d ++ [c]] returns [c] and leaves [d], which covers every non-empty
    deck, and on the empty deck it fails with [IndexError].  The two places
    that draw during play do the same: a Hit click in the player's turn on a
    deck [d ++ [c]] leaves the deck [d] and the player's hand with [c]
    appended; the dealer's step below 17 on a deck [d ++ [c]] leaves the
    deck [d] and the dealer's hand with [c] appended; and on the empty deck
    each of them fails with [IndexError] instead of giving a state. *)
Theorem draw_takes_last_card :
  (forall (d : list card) (c : card), pop (d ++ [c]) = Ok (c, d)) /\
  (forall l : list card,
      l <> [] -> exists d c, l = d ++ [c] /\ pop l = Ok (c, d)) /\
  pop (@nil card) = Error IndexError /\
  (forall sh g mouse_pos d c,
      Hit mouse_pos -> round_over g = false -> game_state g = PLAYER_TURN ->
      deck g = d ++ [c] ->
      exists g',
        handle_event sh g (MOUSEBUTTONDOWN 1 mouse_pos) = Ok g' /\
        deck g' = d /\
        player_hand g' = player_hand g ++ [c] /\
        dealer_hand g' = dealer_hand g) /\
  (forall sh g mouse_pos,
      Hit mouse_pos -> round_over g = false -> game_state g = PLAYER_TURN ->
      deck g = [] ->
      handle_event sh g (MOUSEBUTTONDOWN 1 mouse_pos) = Error IndexError) /\
  (forall g d c,
      game_state g = DEALER_TURN -> score_hand (dealer_hand g) < 17 ->
      deck g = d ++ [c] ->
      exists g',
        update g = Ok g' /\
        deck g' = d /\
        dealer_hand g' = dealer_hand g ++ [c] /\
        player_hand g' = player_hand g) /\
  (forall g,
      game_state g = DEALER_TURN -> score_hand (dealer_hand g) < 17 ->
      deck g = [] ->
      update g = Error IndexError).
Proof.
  split; [exact pop_snoc|].
  split; [exact pop_nonempty|].
  split; [exact pop_nil|].
  split; [|split; [|split]].
  - intros sh g mouse_pos d c Hhit Hover Hphase Hdeck.
    destruct (hit_spec g d c Hdeck) as (g' & Hg' & _ & Hd & Hp & Hdl & _).
    exists g'. rewrite handle_event_Hit by assumption. auto.
  - intros sh g mouse_pos Hhit Hover Hphase Hdeck.
    rewrite handle_event_Hit by assumption.
    unfold hit. now rewrite Hdeck.
  - intros g d c Hphase Hscore Hdeck.
    rewrite (update_draw g d c Hphase Hscore Hdeck).
    eexists. split; [reflexivity|]. cbn. auto.
  - intros g Hphase Hscore Hdeck. unfold update.
    rewrite Hphase. cbn [phase_eqb].
    assert ((score_hand (dealer_hand g) <? 17) = true) as -> by lia.
    now rewrite Hdeck.
Qed.

Lemma draw_takes_last_card_witness :
  pop [(2, Hearts); (7, Clubs)] = Ok ((7, Clubs), [(2, Hearts)]) /\
  (exists g',
      handle_event rotate1 (started rotate1) (MOUSEBUTTONDOWN 1 hit_pos) = Ok g' /\
      deck g' = removelast (deck (started rotate1)) /\
      player_hand g' = [(1, Clubs); (13, Spades); (10, Spades)]) /\
  handle_event rotate1 (set_deck [] (started rotate1))
               (MOUSEBUTTONDOWN 1 hit_pos) = Error IndexError /\
  (exists g',
      update (stood reversed) = Ok g' /\
      deck g' = removelast (deck (stood reversed)) /\
      dealer_hand g' = [(3, Clubs); (4, Clubs); (5, Clubs)]) /\
  update (set_deck [] (stood reversed)) = Error IndexError.
Proof.
  destruct draw_takes_last_card
    as (Hsnoc & _ & _ & Hhit & Hhit_empty & Hupd & Hupd_empty).
  split; [exact (Hsnoc [(2, Hearts)] (7, Clubs))|].
  split.
  - destruct (Hhit rotate1 (started rotate1) hit_pos
                  (removelast (deck (started rotate1))) (10, Spades)
                  eq_refl eq_refl eq_refl eq_refl)
      as (g' & Hev & Hd & Hp & _).
    exists g'. split; [exact Hev|]. split; [exact Hd | exact Hp].
  - split; [apply Hhit_empty; reflexivity|].
    split.
    + destruct (Hupd (stood reversed)
                     (removelast (deck (stood reversed))) (5, Clubs)
                     eq_refl eq_refl eq_refl)
        as (g' & Hu & Hd & Hdl & _).
      exists g'. split; [exact Hu|]. split; [exact Hd | exact Hdl].
    + apply Hupd_empty; reflexivity.
Defined.

Lemma hit_inv (g g' : Game) :
  round_inv g -> game_state g = PLAYER_TURN -> hit g = Ok g' -> round_inv g'.
Proof.
  intros Hinv Hphase Hhit.
  destruct (round_inv_draw g Hinv) as (d & c & Hdeck & _).
  destruct (hit_spec g d c Hdeck)
    as (g1 & Hg1 & _ & Hd & Hp & Hdl & Hbust & H21 & Hless).
  rewrite Hhit in Hg1. injection Hg1 as <-.
  destruct (round_inv_valid g Hinv) as (_ & Hvp & _).
  destruct Hinv as (Hperm & Hover & Htext & Hscore & Hlp & Hldl).
  pose proof (length_le_score _ Hvp) as Hlen.
  specialize (Hscore Hphase).
  unfold round_inv, all_cards. rewrite Hd, Hp, Hdl.
  assert (Hcases : 21 < score_hand (player_hand g ++ [c]) \/
                   score_hand (player_hand g ++ [c]) = 21 \/
                   score_hand (player_hand g ++ [c]) < 21) by lia.
  split; [|split; [|split; [|split; [|split]]]].
  - rewrite perm_draw_player, <- Hdeck. exact Hperm.
  - destruct Hcases as [H|[H|H]].
    + destruct (Hbust H) as (-> & -> & _). tauto.
    + destruct (H21 H) as (-> & -> & _). tauto.
    + destruct (Hless H) as (-> & -> & _). exact Hover.
  - destruct Hcases as [H|[H|H]].
    + destruct (Hbust H) as (-> & _). congruence.
    + destruct (H21 H) as (-> & _). congruence.
    + destruct (Hless H) as (-> & _ & ->). exact Htext.
  - destruct Hcases as [H|[H|H]].
    + destruct (Hbust H) as (-> & _). discriminate.
    + destruct (H21 H) as (-> & _). discriminate.
    + intros _. lia.
  - rewrite length_app. cbn [List.length]. lia.
  - exact Hldl.
Qed.

Lemma stand_inv (g : Game) :
  round_inv g -> game_state g = PLAYER_TURN ->
  round_inv (set_game_state DEALER_TURN g).
Proof.
  intros (Hperm & Hover & Htext & Hscore & Hlp & Hldl) Hphase.
  unfold round_inv, all_cards. cbn.
  split; [exact Hperm|]. split.
  - rewrite Hover, Hphase. split; discriminate.
  - split; [intros _; apply Htext; congruence|].
    split; [discriminate|]. split; assumption.
Qed.

Lemma handle_event_inv (sh : shuffler) (g g' : Game) (ev : event) :
  round_inv g -> is_shuffle sh -> handle_event sh g ev = Ok g' -> round_inv g'.
Proof.
  intros Hinv Hsh Hev. destruct ev as [|button mouse_pos|].
  - cbn in Hev. injection Hev as <-. exact Hinv.
  - cbn [handle_event] in Hev.
    destruct (button =? 1); [|now injection Hev as <-].
    assert (Hmid : exists g1,
               (if is_clicked btn_restart mouse_pos then new_round sh g
                else Ok g) = Ok g1 /\ round_inv g1).
    { destruct (is_clicked btn_restart mouse_pos).
      - destruct (new_round_Ok sh g Hsh) as (? & ? & ? & ? & ? & _ & Hres).
        eexists. split; [exact Hres|].
        now apply (new_round_inv sh g).
      - now exists g. }
    destruct Hmid as (g1 & Hg1 & Hinv1). rewrite Hg1 in Hev.
    cbn [bind] in Hev.
    destruct (round_over g1); cbn [negb] in Hev; [now injection Hev as <-|].
    destruct (game_state g1) eqn:Hphase; cbn [phase_eqb] in Hev;
      try now injection Hev as <-.
    destruct (is_clicked btn_hit mouse_pos).
    + now apply (hit_inv g1).
    + destruct (is_clicked btn_stand mouse_pos); injection Hev as <-.
      * now apply stand_inv.
      * exact Hinv1.
  - cbn in Hev. now injection Hev as <-.
Qed.

Lemma update_inv (g g' : Game) :
  round_inv g -> update g = Ok g' -> round_inv g'.
Proof.
  intros Hinv Hupd.
  destruct (game_state g) eqn:Hphase;
    try (rewrite update_idle in Hupd by congruence; now injection Hupd as <-).
  destruct (round_inv_valid g Hinv) as (_ & _ & Hvd).
  pose proof (length_le_score _ Hvd) as Hlen.
  destruct (Z_lt_le_dec (score_hand (dealer_hand g)) 17) as [Hlow|Hhigh].
  - destruct (round_inv_draw g Hinv) as (d & c & Hdeck & _).
    rewrite (update_draw g d c Hphase Hlow Hdeck) in Hupd. injection Hupd as <-.
    destruct Hinv as (Hperm & Hover & Htext & Hscore & Hlp & Hldl).
    unfold round_inv, all_cards. cbn.
    split; [|split; [|split; [|split; [|split]]]]; try assumption.
    + rewrite perm_draw_dealer, <- Hdeck. exact Hperm.
    + rewrite length_app. cbn [List.length]. lia.
  - rewrite (update_stand g Hphase Hhigh) in Hupd. injection Hupd as <-.
    destruct Hinv as (Hperm & Hover & Htext & Hscore & Hlp & Hldl).
    destruct (determine_winner_frame (set_round_over true (set_game_state DONE g)))
      as (_ & Hd & Hp & Hdl & Hro & Hgs).
    unfold round_inv, all_cards. rewrite Hd, Hp, Hdl, Hro, Hgs. cbn.
    split; [exact Hperm|]. split; [tauto|].
    split; [congruence|]. split; [discriminate|]. split; assumption.
Qed.

(** Every reachable state satisfies the invariant. *)
Lemma reachable_inv (g : Game) : reachable g -> round_inv g.
Proof.
  induction 1 as [sh g Hsh Hinit|sh g ev g' _ IH Hsh Hev|g g' _ IH Hupd].
  - now apply (new_round_inv sh blank).
  - now apply (handle_event_inv sh g g' ev).
  - now apply (update_inv g).
Qed.


Lemma started_reachable (sh : shuffler) :
  is_shuffle sh -> reachable (started sh).
Proof.
  intros Hsh. apply (reach_init sh); [exact Hsh|].
  unfold started, init.
  destruct (new_round_Ok sh blank Hsh) as (? & ? & ? & ? & ? & _ & ->).
  reflexivity.
Qed.



(** * Restart *)

Lemma handle_event_Restart (sh : shuffler) (g : Game) (mouse_pos : Z * Z) :
  is_shuffle sh -> Restart mouse_pos ->
  handle_event sh g (MOUSEBUTTONDOWN 1 mouse_pos) = new_round sh g.
Proof.
  intros Hsh Hclick. cbn [handle_event].
  change (1 =? 1) with true. cbv iota.
  rewrite (Restart_not_Hit _ Hclick), (Restart_not_Stand _ Hclick).
  unfold Restart in Hclick. rewrite Hclick.
  destruct (new_round_Ok sh g Hsh) as (? & ? & ? & ? & ? & _ & ->).
  reflexivity.
Qed.

(** C8.  A left click on Restart, in whatever state, succeeds and leaves
    the state [new_round] builds: the shuffled 52 cards with the last four
    dealt, two to the player and two to the dealer, 48 left in the deck, the
    phase [PLAYER_TURN], no winner text, the round not over.  The cards of
    the new state depend on the shuffle alone: from any other previous state
    the same click gives the same deck and hands. *)
Theorem restart_fresh_round (sh : shuffler) (g : Game) (mouse_pos : Z * Z) :
  is_shuffle sh -> Restart mouse_pos ->
  exists g',
    handle_event sh g (MOUSEBUTTONDOWN 1 mouse_pos) = Ok g' /\
    new_round sh g = Ok g' /\
    sh make_deck = deck g' ++ rev (player_hand g' ++ dealer_hand g') /\
    Permutation (all_cards g') make_deck /\
    List.length (deck g') = 48%nat /\
    List.length (player_hand g') = 2%nat /\
    List.length (dealer_hand g') = 2%nat /\
    game_state g' = PLAYER_TURN /\
    winner_text g' = "" /\
    round_over g' = false /\
    forall g2, exists g2',
        handle_event sh g2 (MOUSEBUTTONDOWN 1 mouse_pos) = Ok g2' /\
        deck g2' = deck g' /\
        player_hand g2' = player_hand g' /\
        dealer_hand g2' = dealer_hand g' /\
        game_state g2' = game_state g' /\
        winner_text g2' = winner_text g' /\
        round_over g2' = round_over g'.
Proof.
  intros Hsh Hclick.
  destruct (new_round_Ok sh g Hsh) as (d & d2 & d1 & p2 & p1 & Heq & Hres).
  eexists. split; [rewrite handle_event_Restart by assumption; exact Hres|].
  split; [exact Hres|].
  pose proof (new_round_inv sh g _ Hsh Hres) as (Hperm & _).
  cbn [deck player_hand dealer_hand game_state winner_text round_over].
  split; [exact Heq|]. split; [exact Hperm|]. split.
  - pose proof (Permutation_length (Hsh make_deck)) as Hlen.
    rewrite Heq, length_app, make_deck_length in Hlen.
    cbn [List.length] in Hlen. lia.
  - repeat (split; [reflexivity|]).
    intros g2.
    destruct (new_round_Ok sh g2 Hsh) as (e & e2 & e1 & q2 & q1 & Heq2 & Hres2).
    eexists. split; [rewrite handle_event_Restart by assumption; exact Hres2|].
    cbn [deck player_hand dealer_hand game_state winner_text round_over].
    rewrite Heq in Heq2.
    change [d2; d1; p2; p1] with ([d2; d1; p2] ++ [p1]) in Heq2.
    change [e2; e1; q2; q1] with ([e2; e1; q2] ++ [q1]) in Heq2.
    rewrite !app_assoc in Heq2. apply app_inj_tail in Heq2 as (Heq2 & ->).
    change [d2; d1; p2] with ([d2; d1] ++ [p2]) in Heq2.
    change [e2; e1; q2] with ([e2; e1] ++ [q2]) in Heq2.
    rewrite !app_assoc in Heq2. apply app_inj_tail in Heq2 as (Heq2 & ->).
    change [d2; d1] with ([d2] ++ [d1]) in Heq2.
    change [e2; e1] with ([e2] ++ [e1]) in Heq2.
    rewrite !app_assoc in Heq2. apply app_inj_tail in Heq2 as (Heq2 & ->).
    apply app_inj_tail in Heq2 as (-> & ->).
    repeat split.
Qed.

Lemma restart_fresh_round_witness :
  exists g',
    handle_event rotate1 (stood reversed) (MOUSEBUTTONDOWN 1 restart_pos) = Ok g' /\
    List.length (deck g') = 48%nat /\
    game_state g' = PLAYER_TURN /\
    winner_text g' = "".
Proof.
  destruct (restart_fresh_round rotate1 (stood reversed) restart_pos
              is_shuffle_rotate1 eq_refl)
    as (g' & Hev & _ & _ & _ & Hlen & _ & _ & Hphase & Htext & _).
  exists g'. repeat split; assumption.
Defined.

(** * The opening deal *)





Example natural_21_deal :
  player_hand (started rotate1) = [(1, Clubs); (13, Spades)] /\
  score_hand (player_hand (started rotate1)) = 21 /\
  game_state (started rotate1) = PLAYER_TURN.
Proof. repeat split. Qed.

(** * Hit *)

(** C2.  In a reachable state in the player's turn, a left click on Hit
    draws the last card of the deck, which is never empty there, and appends
    it to the player's hand, the dealer's hand staying as it was.  With the
    new score above 21 the phase becomes [DONE] and the text says the player
    busted and the dealer wins; with exactly 21 the phase becomes [DONE],
    the text says the player wins, and [update] does nothing more (the
    dealer does not play); below 21 the phase stays [PLAYER_TURN], the round
    is not over and the text is still empty. *)
Theorem hit_in_player_turn (sh : shuffler) (g : Game) (mouse_pos : Z * Z) :
  reachable g -> game_state g = PLAYER_TURN -> Hit mouse_pos ->
  exists d c g',
    deck g = d ++ [c] /\
    handle_event sh g (MOUSEBUTTONDOWN 1 mouse_pos) = Ok g' /\
    deck g' = d /\
    player_hand g' = player_hand g ++ [c] /\
    dealer_hand g' = dealer_hand g /\
    (21 < score_hand (player_hand g') ->
     game_state g' = DONE /\ round_over g' = true /\
     winner_text g' = "You busted! Dealer wins.") /\
    (score_hand (player_hand g') = 21 ->
     game_state g' = DONE /\ round_over g' = true /\
     winner_text g' = "You hit 21! You win." /\
     update g' = Ok g') /\
    (score_hand (player_hand g') < 21 ->
     game_state g' = PLAYER_TURN /\ round_over g' = false /\
     winner_text g' = "").
Proof.
  intros Hreach Hphase Hclick.
  pose proof (reachable_inv g Hreach) as Hinv.
  destruct (round_inv_draw g Hinv) as (d & c & Hdeck & _).
  destruct Hinv as (_ & Hover & Htext & _).
  assert (Hover' : round_over g = false).
  { destruct (round_over g); [|reflexivity].
    assert (game_state g = DONE) by now apply Hover. congruence. }
  assert (Htext' : winner_text g = "") by (apply Htext; congruence).
  destruct (hit_spec g d c Hdeck)
    as (g' & Hhit & _ & Hd & Hp & Hdl & Hbust & H21 & Hless).
  exists d, c, g'. split; [exact Hdeck|].
  split; [rewrite handle_event_Hit by assumption; exact Hhit|].
  split; [exact Hd|]. split; [exact Hp|]. split; [exact Hdl|].
  rewrite Hp. split; [exact Hbust|]. split.
  - intros H. destruct (H21 H) as (Hdone & Hro & Hwt).
    repeat (split; [assumption|]).
    apply update_idle. rewrite Hdone. discriminate.
  - intros H. destruct (Hless H) as (-> & -> & ->). auto.
Qed.

Lemma hit_in_player_turn_witness :
  exists d c g',
    deck (started rotate1) = d ++ [c] /\
    handle_event rotate1 (started rotate1) (MOUSEBUTTONDOWN 1 hit_pos) = Ok g' /\
    deck g' = d /\
    player_hand g' = player_hand (started rotate1) ++ [c].
Proof.
  destruct (hit_in_player_turn rotate1 (started rotate1) hit_pos
              (started_reachable rotate1 is_shuffle_rotate1) eq_refl eq_refl)
    as (d & c & g' & Hdeck & Hev & Hd & Hp & _).
  exists d, c, g'. repeat split; assumption.
Defined.

Example scenario4 :
  handle_event rotate1 scenario4_state (MOUSEBUTTONDOWN 1 hit_pos) =
  Ok (mkGame true [(5, Clubs)]
             [(9, Clubs); (2, Diamonds); (10, Hearts)]
             [(7, Spades); (8, Spades)]
             true "You hit 21! You win." DONE).
Proof. reflexivity. Qed.

Example hit_on_natural_21 :
  exists g',
    handle_event rotate1 (started rotate1) (MOUSEBUTTONDOWN 1 hit_pos) = Ok g' /\
    player_hand g' = [(1, Clubs); (13, Spades); (10, Spades)] /\
    game_state g' = DONE /\
    winner_text g' = "You hit 21! You win.".
Proof. eexists. repeat split. Qed.

(** * The dealer's step *)

(** C3.  In a reachable state in the dealer's turn, one [update]: with the
    dealer's score below 17 draws the last card of the deck, which is never
    empty there, appends it to the dealer's hand and changes nothing else,
    so the phase stays [DEALER_TURN]; with the score at 17 or more leaves the
    cards alone, sets the phase to [DONE] and the winner text by comparison:
    dealer above 21, the dealer busted and the player wins; otherwise the
    higher score wins and equal scores tie. *)
Theorem dealer_step (g : Game) :
  reachable g -> game_state g = DEALER_TURN ->
  (score_hand (dealer_hand g) < 17 ->
   exists d c g',
     deck g = d ++ [c] /\ update g = Ok g' /\
     deck g' = d /\
     dealer_hand g' = dealer_hand g ++ [c] /\
     player_hand g' = player_hand g /\
     game_state g' = DEALER_TURN /\
     round_over g' = round_over g /\
     winner_text g' = winner_text g) /\
  (17 <= score_hand (dealer_hand g) ->
   exists g',
     update g = Ok g' /\
     deck g' = deck g /\
     dealer_hand g' = dealer_hand g /\
     player_hand g' = player_hand g /\
     game_state g' = DONE /\
     round_over g' = true /\
     (21 < score_hand (dealer_hand g) ->
      winner_text g' = "Dealer busted! You win.") /\
     (score_hand (dealer_hand g) <= 21 ->
      score_hand (dealer_hand g) < score_hand (player_hand g) ->
      winner_text g' = "You win!") /\
     (score_hand (dealer_hand g) <= 21 ->
      score_hand (player_hand g) < score_hand (dealer_hand g) ->
      winner_text g' = "Dealer wins.") /\
     (score_hand (dealer_hand g) <= 21 ->
      score_hand (player_hand g) = score_hand (dealer_hand g) ->
      winner_text g' = "It's a tie!")).
Proof.
  intros Hreach Hphase. pose proof (reachable_inv g Hreach) as Hinv. split.
  - intros Hlow. destruct (round_inv_draw g Hinv) as (d & c & Hdeck & _).
    exists d, c. eexists. split; [exact Hdeck|].
    split; [exact (update_draw g d c Hphase Hlow Hdeck)|].
    cbn. repeat split. exact Hphase.
  - intros Hhigh. eexists. split; [exact (update_stand g Hphase Hhigh)|].
    destruct (determine_winner_frame (set_round_over true (set_game_state DONE g)))
      as (_ & -> & -> & -> & -> & ->).
    cbn [deck player_hand dealer_hand round_over game_state
         set_round_over set_game_state].
    repeat (split; [reflexivity|]).
    unfold determine_winner.
    cbn [deck player_hand dealer_hand round_over game_state
         set_round_over set_game_state].
    repeat split; intros;
      repeat match goal with
             | |- context [if ?b then _ else _] =>
                 let E := fresh "E" in destruct b eqn:E
             end; try reflexivity; lia.
Qed.

Lemma stood_reversed_reachable : reachable (stood reversed).
Proof.
  apply (reach_event reversed (started reversed) (MOUSEBUTTONDOWN 1 stand_pos)).
  - exact (started_reachable reversed is_shuffle_reversed).
  - exact is_shuffle_reversed.
  - reflexivity.
Qed.

Lemma dealer_step_witness :
  score_hand (dealer_hand (stood reversed)) < 17 /\
  exists d c g',
    deck (stood reversed) = d ++ [c] /\ update (stood reversed) = Ok g' /\
    deck g' = d /\
    dealer_hand g' = dealer_hand (stood reversed) ++ [c] /\
    game_state g' = DEALER_TURN.
Proof.
  assert (Hlow : score_hand (dealer_hand (stood reversed)) < 17)
    by (vm_compute; reflexivity).
  split; [exact Hlow|].
  destruct (proj1 (dealer_step (stood reversed) stood_reversed_reachable eq_refl)
              Hlow)
    as (d & c & g' & Hdeck & Hupd & Hd & Hdl & _ & Hphase & _).
  exists d, c, g'. repeat split; assumption.
Defined.

Example scenario5 :
  update scenario5_state =
  Ok (mkGame true [(4, Clubs)]
             [(10, Spades); (7, Hearts)]
             [(10, Clubs); (6, Diamonds); (2, Hearts)]
             false "" DEALER_TURN) /\
  frame (mkGame true [(4, Clubs)]
             [(10, Spades); (7, Hearts)]
             [(10, Clubs); (6, Diamonds); (2, Hearts)]
             false "" DEALER_TURN) [] =
  Ok (mkGame true [(4, Clubs)]
             [(10, Spades); (7, Hearts)]
             [(10, Clubs); (6, Diamonds); (2, Hearts)]
             true "Dealer wins." DONE).
Proof. split; reflexivity. Qed.

Example scenario6 :
  handle_event rotate1 scenario5_state (MOUSEBUTTONDOWN 1 hit_pos) =
  Ok scenario5_state.
Proof. reflexivity. Qed.

(** * Frames *)

(** The reachable states are closed under whole frames of the main loop. *)
Lemma handle_events_reachable (evs : list (shuffler * event)) :
  forall g g',
    reachable g -> Forall (fun e => is_shuffle (fst e)) evs ->
    handle_events g evs = Ok g' -> reachable g'.
Proof.
  induction evs as [|[sh ev] rest IH]; intros g g' Hreach Hsh Hevs.
  - cbn in Hevs. now injection Hevs as <-.
  - cbn [handle_events] in Hevs.
    destruct (handle_event sh g ev) as [g1|] eqn:Hev; cbn [bind] in Hevs;
      [|discriminate].
    inversion Hsh as [|? ? Hsh1 Hshrest]; subst.
    apply (IH g1); [|assumption..].
    exact (reach_event sh g ev g1 Hreach Hsh1 Hev).
Qed.

Lemma frame_reachable (g g' : Game) (evs : list (shuffler * event)) :
  reachable g -> Forall (fun e => is_shuffle (fst e)) evs ->
  frame g evs = Ok g' -> reachable g'.
Proof.
  intros Hreach Hsh Hframe. unfold frame in Hframe.
  destruct (handle_events g evs) as [g1|] eqn:Hevs; cbn [bind] in Hframe;
    [|discriminate].
  apply (reach_update g1); [|exact Hframe].
  exact (handle_events_reachable evs g g1 Hreach Hsh Hevs).
Qed.

(** No frame of a reachable state fails: the deck never runs out. *)
Lemma frame_never_fails (g : Game) (evs : list (shuffler * event)) :
  reachable g -> Forall (fun e => is_shuffle (fst e)) evs ->
  exists g', frame g evs = Ok g'.
Proof.
  intros Hreach Hsh.
  assert (Hstep : forall sh g ev, round_inv g -> is_shuffle sh ->
                                  exists g1, handle_event sh g ev = Ok g1).
  { clear. intros sh g ev Hinv Hsh. destruct ev as [|button mouse_pos|];
      [eexists; reflexivity| |eexists; reflexivity].
    cbn [handle_event]. destruct (button =? 1); [|eexists; reflexivity].
    assert (Hmid : exists g1,
               (if is_clicked btn_restart mouse_pos then new_round sh g
                else Ok g) = Ok g1 /\ round_inv g1).
    { destruct (is_clicked btn_restart mouse_pos).
      - destruct (new_round_Ok sh g Hsh) as (? & ? & ? & ? & ? & _ & Hres).
        eexists. split; [exact Hres|]. now apply (new_round_inv sh g).
      - now exists g. }
    destruct Hmid as (g1 & -> & Hinv1). cbn [bind].
    destruct (round_over g1); cbn [negb]; [eexists; reflexivity|].
    destruct (phase_eqb (game_state g1) PLAYER_TURN); [|eexists; reflexivity].
    destruct (is_clicked btn_hit mouse_pos).
    - destruct (round_inv_draw g1 Hinv1) as (d & c & Hdeck & _).
      destruct (hit_spec g1 d c Hdeck) as (g2 & Hhit & _).
      now exists g2.
    - destruct (is_clicked btn_stand mouse_pos); eexists; reflexivity. }
  assert (Hevs : forall evs g, round_inv g ->
                   Forall (fun e => is_shuffle (fst e)) evs ->
                   exists g1, handle_events g evs = Ok g1 /\ round_inv g1).
  { clear - Hstep. induction evs as [|[sh ev] rest IH]; intros g Hinv Hsh.
    - exists g. split; [reflexivity | exact Hinv].
    - inversion Hsh as [|? ? Hsh1 Hshrest]; subst. cbn [fst] in Hsh1.
      destruct (Hstep sh g ev Hinv Hsh1) as (g1 & Hev).
      cbn [handle_events]. rewrite Hev. cbn [bind].
      apply IH; [|exact Hshrest].
      exact (handle_event_inv sh g g1 ev Hinv Hsh1 Hev). }
  destruct (Hevs evs g (reachable_inv g Hreach) Hsh) as (g1 & Hg1 & Hinv1).
  unfold frame. rewrite Hg1. cbn [bind].
  destruct (game_state g1) eqn:Hphase;
    try (rewrite update_idle by congruence; now eexists).
  destruct (Z_lt_le_dec (score_hand (dealer_hand g1)) 17) as [Hlow|Hhigh].
  - destruct (round_inv_draw g1 Hinv1) as (d & c & Hdeck & _).
    rewrite (update_draw g1 d c Hphase Hlow Hdeck). now eexists.
  - rewrite (update_stand g1 Hphase Hhigh). now eexists.
Qed.

(** * More on scoring *)

Lemma hard_total_perm (h1 h2 : list card) :
  Permutation h1 h2 -> hard_total h1 = hard_total h2.
Proof.
  induction 1 as [|c l l' _ IH|c c' l|l l' l'' _ IH1 _ IH2].
  - reflexivity.
  - rewrite !hard_total_cons. lia.
  - rewrite !hard_total_cons. lia.
  - congruence.
Qed.

Lemma count_aces_perm (h1 h2 : list card) :
  Permutation h1 h2 -> count_aces h1 = count_aces h2.
Proof.
  induction 1 as [|c l l' _ IH|c c' l|l l' l'' _ IH1 _ IH2].
  - reflexivity.
  - rewrite !count_aces_cons. lia.
  - rewrite !count_aces_cons. lia.
  - congruence.
Qed.

(** X1.  The score of a hand does not depend on the order of its cards. *)
Theorem score_hand_order_independent (h1 h2 : list card) :
  Permutation h1 h2 -> score_hand h1 = score_hand h2.
Proof.
  intros Hperm. rewrite !score_hand_eq.
  now rewrite (hard_total_perm _ _ Hperm), (count_aces_perm _ _ Hperm).
Qed.

Lemma score_hand_order_independent_witness :
  score_hand [(9, Diamonds); (1, Hearts); (1, Spades)] =
  score_hand two_aces_nine.
Proof.
  apply score_hand_order_independent. unfold two_aces_nine.
  apply Permutation_sym, (Permutation_rev [(1, Spades); (1, Hearts); (9, Diamonds)]).
Defined.

(** X2.  A hand is over 21 exactly when it is over 21 with every Ace counted as
    1: the loop over the Aces never takes a hand past 21 and never brings a
    hand that is past it back. *)
Theorem score_hand_bust_iff (hand : list card) :
  21 < score_hand hand <-> 21 < hard_total hand.
Proof.
  rewrite score_hand_eq.
  destruct (promote_spec (count_aces hand) (hard_total hand))
    as (k & _ & Heq & Hle & _).
  split.
  - intros Hbust. destruct (Z_le_gt_dec (hard_total hand) 21) as [Hlow|Hhigh].
    + specialize (Hle Hlow). lia.
    + lia.
  - intros Hhigh. rewrite promote_over; lia.
Qed.

Lemma score_hand_bust_iff_witness :
  21 < score_hand [(10, Clubs); (10, Diamonds); (5, Hearts)].
Proof.
  apply score_hand_bust_iff. reflexivity.
Defined.

(** X3.  A hand without an Ace scores the sum of its ranks capped at 10. *)
Theorem score_hand_without_ace (hand : list card) :
  has_ace hand = false -> score_hand hand = hard_total hand.
Proof.
  intros Hno. rewrite score_hand_eq.
  rewrite has_ace_count in Hno.
  destruct (count_aces hand); [reflexivity | discriminate].
Qed.

Lemma score_hand_without_ace_witness :
  score_hand [(10, Clubs); (13, Diamonds); (5, Hearts)] = 25.
Proof.
  rewrite score_hand_without_ace; reflexivity.
Defined.

(** * Card names *)

Lemma string_length_append (a b : string) :
  String.length (a ++ b)%string = (String.length a + String.length b)%nat.
Proof.
  induction a as [|ch a IH]; [reflexivity|].
  cbn [String.append String.length]. now rewrite IH.
Qed.

Lemma append_suffix_inj (a b s t : string) :
  String.length s = String.length t ->
  (a ++ s)%string = (b ++ t)%string -> a = b /\ s = t.
Proof.
  revert b. induction a as [|ch a IH]; intros [|ch' b] Hlen Heq.
  - split; [reflexivity | exact Heq].
  - cbn [String.append] in Heq. subst s.
    cbn [String.length] in Hlen. rewrite string_length_append in Hlen. lia.
  - cbn [String.append] in Heq. subst t.
    cbn [String.length] in Hlen. rewrite string_length_append in Hlen. lia.
  - cbn [String.append] in Heq. injection Heq as -> Heq.
    destruct (IH b Hlen Heq) as (-> & ->). split; reflexivity.
Qed.

Lemma to_int_not_nil (n : Z) :
  Z.to_int n <> Decimal.Pos Decimal.Nil /\
  Z.to_int n <> Decimal.Neg Decimal.Nil.
Proof.
  split; intros H; pose proof (f_equal Z.of_int H) as H0;
    rewrite DecimalZ.of_to in H0; cbn in H0; subst n; discriminate H.
Qed.

(** Reading [str n] back as a numeral gives [n]. *)
Lemma str_parse (n : Z) :
  DecimalString.NilZero.int_of_string (str n) = Some (Z.to_int n).
Proof.
  unfold str. destruct (to_int_not_nil n) as (Hpos & Hneg).
  now apply DecimalString.NilZero.isi.
Qed.

Lemma str_inj (a b : Z) : str a = str b -> a = b.
Proof.
  intros H. apply DecimalZ.to_int_inj.
  pose proof (str_parse a) as Ha. rewrite H, str_parse in Ha.
  now injection Ha.
Qed.

Lemma str_not_letter (n : Z) :
  str n <> "A" /\ str n <> "J" /\ str n <> "Q" /\ str n <> "K".
Proof.
  repeat split; intros H; pose proof (str_parse n) as Hp; rewrite H in Hp;
    discriminate.
Qed.

Lemma rank_str_inj (a b : Z) : rank_str a = rank_str b -> a = b.
Proof.
  unfold rank_str. intros H.
  destruct (str_not_letter a) as (HaA & HaJ & HaQ & HaK).
  destruct (str_not_letter b) as (HbA & HbJ & HbQ & HbK).
  destruct (a =? 1) eqn:Ea1; [|destruct (a =? 11) eqn:Ea11;
    [|destruct (a =? 12) eqn:Ea12; [|destruct (a =? 13) eqn:Ea13]]];
  (destruct (b =? 1) eqn:Eb1; [|destruct (b =? 11) eqn:Eb11;
    [|destruct (b =? 12) eqn:Eb12; [|destruct (b =? 13) eqn:Eb13]]]);
  try lia; try discriminate; try congruence.
  now apply str_inj.
Qed.

Lemma suit_str_inj (s t : suit) : suit_str s = suit_str t -> s = t.
Proof. destruct s, t; intros H; try reflexivity; discriminate. Qed.

(** X4.  Different cards have different names, whatever their ranks: a name
    determines the rank and the suit. *)
Theorem card_to_string_injective (c1 c2 : card) :
  c1 <> c2 -> card_to_string c1 <> card_to_string c2.
Proof.
  destruct c1 as [r1 s1], c2 as [r2 s2]. cbn [card_to_string]. intros Hne H.
  apply append_suffix_inj in H as (Hr & Hs);
    [|now destruct s1, s2].
  apply rank_str_inj in Hr. apply suit_str_inj in Hs. congruence.
Qed.

Lemma card_to_string_injective_witness :
  card_to_string (1, Spades) <> card_to_string (11, Spades) /\
  card_to_string (10, Hearts) <> card_to_string (10, Diamonds).
Proof.
  split; apply card_to_string_injective; discriminate.
Defined.

Example card_names :
  map card_to_string [(1, Spades); (10, Hearts); (12, Diamonds); (7, Clubs)] =
  ["A♠"; "10♥"; "Q♦"; "7♣"].
Proof. reflexivity. Qed.

(** * More on events *)

Lemma Hit_not_Stand (mouse_pos : Z * Z) :
  Hit mouse_pos -> is_clicked btn_stand mouse_pos = false.
Proof.
  unfold Hit, is_clicked, btn_hit, btn_stand. destruct mouse_pos as [x y].
  cbn [left top width height]. lia.
Qed.

Lemma Stand_not_Hit (mouse_pos : Z * Z) :
  Stand mouse_pos -> is_clicked btn_hit mouse_pos = false.
Proof.
  unfold Stand, is_clicked, btn_hit, btn_stand. destruct mouse_pos as [x y].
  cbn [left top width height]. lia.
Qed.

(** X5.  No point of the window lies in two of the three buttons, so the
    separate tests of [handle_events] for Restart and for Hit or Stand never
    both fire on one click. *)
Theorem buttons_disjoint (mouse_pos : Z * Z) :
  is_clicked btn_hit mouse_pos && is_clicked btn_stand mouse_pos = false /\
  is_clicked btn_hit mouse_pos && is_clicked btn_restart mouse_pos = false /\
  is_clicked btn_stand mouse_pos && is_clicked btn_restart mouse_pos = false.
Proof.
  repeat split.
  - destruct (is_clicked btn_hit mouse_pos) eqn:H; [|reflexivity].
    exact (Hit_not_Stand _ H).
  - destruct (is_clicked btn_hit mouse_pos) eqn:H; [|reflexivity].
    exact (Hit_not_Restart _ H).
  - destruct (is_clicked btn_stand mouse_pos) eqn:H; [|reflexivity].
    exact (Stand_not_Restart _ H).
Qed.

(** X6.  A left click on Stand in a running player's turn hands the turn to the
    dealer and changes nothing else: no card is drawn, no text is set. *)
Theorem stand_in_player_turn (sh : shuffler) (g : Game) (mouse_pos : Z * Z) :
  Stand mouse_pos -> round_over g = false -> game_state g = PLAYER_TURN ->
  handle_event sh g (MOUSEBUTTONDOWN 1 mouse_pos) =
  Ok (set_game_state DEALER_TURN g).
Proof.
  intros Hclick Hover Hphase. cbn [handle_event].
  change (1 =? 1) with true. cbv iota.
  rewrite (Stand_not_Restart _ Hclick). cbn [bind].
  rewrite Hover, Hphase. cbn [negb phase_eqb].
  rewrite (Stand_not_Hit _ Hclick).
  unfold Stand in Hclick. now rewrite Hclick.
Qed.

Lemma stand_in_player_turn_witness :
  handle_event rotate1 (started reversed) (MOUSEBUTTONDOWN 1 stand_pos) =
  Ok (stood reversed).
Proof.
  apply stand_in_player_turn; reflexivity.
Defined.

(** X7.  A press of another mouse button, and a left click outside the three
    buttons, change nothing, in any state. *)
Theorem other_clicks_ignored (sh : shuffler) (g : Game)
        (button : Z) (mouse_pos : Z * Z) :
  button <> 1 \/
  (is_clicked btn_hit mouse_pos = false /\
   is_clicked btn_stand mouse_pos = false /\
   is_clicked btn_restart mouse_pos = false) ->
  handle_event sh g (MOUSEBUTTONDOWN button mouse_pos) = Ok g.
Proof.
  intros [Hbutton|(Hhit & Hstand & Hrestart)]; cbn [handle_event].
  - assert ((button =? 1) = false) as -> by lia. reflexivity.
  - rewrite Hhit, Hstand, Hrestart. cbn [bind].
    destruct (button =? 1); [|reflexivity].
    destruct (negb (round_over g)); [|reflexivity].
    destruct (phase_eqb (game_state g) PLAYER_TURN); reflexivity.
Qed.

Lemma other_clicks_ignored_witness :
  handle_event rotate1 (started rotate1) (MOUSEBUTTONDOWN 3 hit_pos) =
  Ok (started rotate1) /\
  handle_event rotate1 (started rotate1) (MOUSEBUTTONDOWN 1 (10, 10)) =
  Ok (started rotate1).
Proof.
  split; apply other_clicks_ignored.
  - left. discriminate.
  - right. repeat split.
Defined.

(** ** The [running] flag *)

Lemma new_round_running (sh : shuffler) (g g' : Game) :
  new_round sh g = Ok g' -> running g' = running g.
Proof.
  unfold new_round.
  destruct (pop (sh make_deck)) as [[p1 l1]|]; cbn [bind]; [|discriminate].
  destruct (pop l1) as [[p2 l2]|]; cbn [bind]; [|discriminate].
  destruct (pop l2) as [[d1 l3]|]; cbn [bind]; [|discriminate].
  destruct (pop l3) as [[d2 l4]|]; cbn [bind]; [|discriminate].
  now intros [= <-].
Qed.

Lemma hit_running (g g' : Game) : hit g = Ok g' -> running g' = running g.
Proof.
  unfold hit. destruct (pop (deck g)) as [[c d]|]; cbn [bind]; [|discriminate].
  cbn [player_hand set_player_hand].
  destruct (score_hand (player_hand g ++ [c]) >? 21);
    [|destruct (score_hand (player_hand g ++ [c]) =? 21)];
    now intros [= <-].
Qed.

Lemma handle_event_running (sh : shuffler) (g g' : Game) (ev : event) :
  handle_event sh g ev = Ok g' ->
  running g' = running g && negb (is_quit ev).
Proof.
  destruct ev as [|button mouse_pos|]; cbn [handle_event is_quit negb].
  - intros [= <-]. cbn. now rewrite andb_false_r.
  - rewrite andb_true_r.
    destruct (button =? 1); [|now intros [= <-]].
    destruct (is_clicked btn_restart mouse_pos).
    + destruct (new_round sh g) as [g1|] eqn:Hnew; cbn [bind]; [|discriminate].
      rewrite <- (new_round_running _ _ _ Hnew).
      destruct (negb (round_over g1)); [|now intros [= <-]].
      destruct (phase_eqb (game_state g1) PLAYER_TURN); [|now intros [= <-]].
      destruct (is_clicked btn_hit mouse_pos); [apply hit_running|].
      destruct (is_clicked btn_stand mouse_pos); now intros [= <-].
    + cbn [bind].
      destruct (negb (round_over g)); [|now intros [= <-]].
      destruct (phase_eqb (game_state g) PLAYER_TURN); [|now intros [= <-]].
      destruct (is_clicked btn_hit mouse_pos); [apply hit_running|].
      destruct (is_clicked btn_stand mouse_pos); now intros [= <-].
  - rewrite andb_true_r. now intros [= <-].
Qed.


Lemma handle_events_running (evs : list (shuffler * event)) (g g' : Game) :
  handle_events g evs = Ok g' ->
  running g' = running g && forallb (fun e => negb (is_quit (snd e))) evs.
Proof.
  revert g. induction evs as [|[sh ev] rest IH]; intros g Hevs.
  - cbn in Hevs. injection Hevs as <-. cbn. now rewrite andb_true_r.
  - cbn [handle_events] in Hevs.
    destruct (handle_event sh g ev) as [g1|] eqn:Hev; cbn [bind] in Hevs;
      [|discriminate].
    rewrite (IH g1 Hevs), (handle_event_running _ _ _ _ Hev).
    cbn [forallb snd]. now rewrite andb_assoc.
Qed.

(** X8.  After a queue of events, [running] is set exactly when it was set before
    and the queue holds no [QUIT]: nothing, not even a restart later in the
    same queue, sets it again. *)
Theorem running_after_events (evs : list (shuffler * event)) (g g' : Game) :
  handle_events g evs = Ok g' ->
  running g' = running g && forallb (fun e => negb (is_quit (snd e))) evs.
Proof. apply handle_events_running. Qed.

Lemma running_after_events_witness :
  exists g',
    handle_events (started rotate1)
                  [(rotate1, QUIT); (rotate1, MOUSEBUTTONDOWN 1 restart_pos)]
    = Ok g' /\ running g' = false.
Proof.
  eexists. split; [reflexivity|].
  apply (running_after_events
           [(rotate1, QUIT); (rotate1, MOUSEBUTTONDOWN 1 restart_pos)]
           (started rotate1)).
  reflexivity.
Defined.

Lemma set_running_same (g : Game) : set_running (running g) g = g.
Proof. now destruct g. Qed.

Lemma new_round_set_running (sh : shuffler) (b : bool) (g : Game) :
  new_round sh (set_running b g) =
  (g' <- new_round sh g ;; Ok (set_running b g')).
Proof.
  unfold new_round.
  destruct (pop (sh make_deck)) as [[p1 l1]|]; cbn [bind]; [|reflexivity].
  destruct (pop l1) as [[p2 l2]|]; cbn [bind]; [|reflexivity].
  destruct (pop l2) as [[d1 l3]|]; cbn [bind]; [|reflexivity].
  destruct (pop l3) as [[d2 l4]|]; cbn [bind]; reflexivity.
Qed.

Lemma hit_set_running (b : bool) (g : Game) :
  hit (set_running b g) = (g' <- hit g ;; Ok (set_running b g')).
Proof.
  unfold hit. cbn [deck set_running].
  destruct (pop (deck g)) as [[c d]|]; cbn [bind]; [|reflexivity].
  cbn [player_hand set_player_hand set_deck set_running].
  destruct (score_hand (player_hand g ++ [c]) >? 21);
    [|destruct (score_hand (player_hand g ++ [c]) =? 21)]; reflexivity.
Qed.

(** Apart from [QUIT], the handler does not look at [running]. *)
Lemma handle_event_set_running (sh : shuffler) (b : bool) (g : Game) (ev : event) :
  is_quit ev = false ->
  handle_event sh (set_running b g) ev =
  (g' <- handle_event sh g ev ;; Ok (set_running b g')).
Proof.
  destruct ev as [|button mouse_pos|]; [discriminate| |reflexivity].
  intros _. cbn [handle_event].
  destruct (button =? 1); [|reflexivity].
  assert (Hbody : forall g1,
             (if negb (round_over (set_running b g1)) then
                if phase_eqb (game_state (set_running b g1)) PLAYER_TURN then
                  if is_clicked btn_hit mouse_pos then hit (set_running b g1)
                  else if is_clicked btn_stand mouse_pos then
                    Ok (set_game_state DEALER_TURN (set_running b g1))
                  else Ok (set_running b g1)
                else Ok (set_running b g1)
              else Ok (set_running b g1)) =
             (g' <- (if negb (round_over g1) then
                       if phase_eqb (game_state g1) PLAYER_TURN then
                         if is_clicked btn_hit mouse_pos then hit g1
                         else if is_clicked btn_stand mouse_pos then
                           Ok (set_game_state DEALER_TURN g1)
                         else Ok g1
                       else Ok g1
                     else Ok g1) ;; Ok (set_running b g'))).
  { intros g1. cbn [round_over game_state set_running].
    destruct (negb (round_over g1)); [|reflexivity].
    destruct (phase_eqb (game_state g1) PLAYER_TURN); [|reflexivity].
    destruct (is_clicked btn_hit mouse_pos); [apply hit_set_running|].
    destruct (is_clicked btn_stand mouse_pos); reflexivity. }
  destruct (is_clicked btn_restart mouse_pos).
  - rewrite new_round_set_running.
    destruct (new_round sh g) as [g1|]; cbn [bind]; [apply Hbody|reflexivity].
  - cbn [bind]. apply Hbody.
Qed.

Lemma handle_events_set_running (b : bool) (evs : list (shuffler * event)) :
  forall g,
    forallb (fun e => negb (is_quit (snd e))) evs = true ->
    handle_events (set_running b g) evs =
    (g' <- handle_events g evs ;; Ok (set_running b g')).
Proof.
  induction evs as [|[sh ev] rest IH]; intros g Hall; [reflexivity|].
  cbn [forallb snd] in Hall. apply andb_true_iff in Hall as (Hev & Hrest).
  apply negb_true_iff in Hev.
  cbn [handle_events]. rewrite (handle_event_set_running sh b g ev Hev).
  destruct (handle_event sh g ev) as [g1|]; cbn [bind]; [|reflexivity].
  now apply IH.
Qed.

Lemma without_quit_all (evs : list (shuffler * event)) :
  forallb (fun e => negb (is_quit (snd e))) (without_quit evs) = true.
Proof.
  apply forallb_forall. intros e He. unfold without_quit in He.
  now apply filter_In in He.
Qed.

(** X9.  [QUIT] stops the loop and nothing else: the round a queue of events
    leaves is the round the same queue leaves with its [QUIT] events taken
    out. *)
Theorem quit_leaves_round (evs : list (shuffler * event)) (g g' : Game) :
  handle_events g evs = Ok g' ->
  handle_events g (without_quit evs) = Ok (set_running (running g) g').
Proof.
  revert g. induction evs as [|[sh ev] rest IH]; intros g Hevs.
  - cbn in Hevs. injection Hevs as <-. cbn. now rewrite set_running_same.
  - cbn [handle_events] in Hevs.
    destruct (handle_event sh g ev) as [g1|] eqn:Hev; cbn [bind] in Hevs;
      [|discriminate].
    specialize (IH g1 Hevs).
    unfold without_quit. cbn [filter snd]. fold (without_quit rest).
    destruct (is_quit ev) eqn:Hquit; cbn [negb].
    + destruct ev; try discriminate. cbn in Hev. injection Hev as <-.
      cbn [running set_running] in IH.
      rewrite <- (set_running_same g) at 1.
      change (set_running (running g) g)
        with (set_running (running g) (set_running false g)).
      rewrite handle_events_set_running by apply without_quit_all.
      rewrite handle_events_set_running by apply without_quit_all.
      rewrite handle_events_set_running in IH by apply without_quit_all.
      destruct (handle_events g (without_quit rest)) as [g2|]; cbn [bind] in *;
        [|discriminate].
      assert (IH' : set_running false g2 = set_running false g') by congruence.
      apply (f_equal (set_running (running g))) in IH'.
      f_equal. exact IH'.
    + cbn [handle_events]. rewrite Hev. cbn [bind].
      rewrite IH. f_equal.
      rewrite (handle_event_running _ _ _ _ Hev), Hquit.
      cbn [negb]. now rewrite andb_true_r.
Qed.

Lemma quit_leaves_round_witness :
  handle_events (started rotate1)
                (without_quit [(rotate1, QUIT);
                               (rotate1, MOUSEBUTTONDOWN 1 stand_pos)])
  = Ok (stood rotate1).
Proof.
  apply (quit_leaves_round
           [(rotate1, QUIT); (rotate1, MOUSEBUTTONDOWN 1 stand_pos)]
           (started rotate1) (set_running false (stood rotate1))).
  reflexivity.
Defined.

(** * How a round moves *)

Lemma hit_moves (g g' : Game) :
  hit g = Ok g' ->
  exists c,
    deck g = deck g' ++ [c] /\
    player_hand g' = player_hand g ++ [c] /\
    dealer_hand g' = dealer_hand g /\
    (game_state g' = game_state g \/ game_state g' = DONE).
Proof.
  unfold hit. destruct (pop (deck g)) as [[c d]|] eqn:Hpop; cbn [bind];
    [|discriminate].
  apply pop_Ok in Hpop. cbn [player_hand set_player_hand].
  destruct (score_hand (player_hand g ++ [c]) >? 21);
    [|destruct (score_hand (player_hand g ++ [c]) =? 21)];
    intros [= <-]; exists c; cbn; auto.
Qed.

Lemma not_restart_click (button : Z) (mouse_pos : Z * Z) :
  ~ restart_click (MOUSEBUTTONDOWN button mouse_pos) ->
  (button =? 1) = true -> is_clicked btn_restart mouse_pos = false.
Proof.
  intros Hnot Hbutton.
  destruct (is_clicked btn_restart mouse_pos) eqn:Hclick; [|reflexivity].
  exfalso. apply Hnot. exists mouse_pos. split; [|exact Hclick].
  f_equal. lia.
Qed.

(** X11.  Any event that is not a click on Restart moves at most one card, from
    the end of the deck to the end of the player's hand; it leaves the
    dealer's hand alone and never takes the phase backwards. *)
Theorem event_moves_forward (sh : shuffler) (g g' : Game) (ev : event) :
  ~ restart_click ev ->
  handle_event sh g ev = Ok g' ->
  exists drawn,
    (List.length drawn <= 1)%nat /\
    deck g = deck g' ++ drawn /\
    player_hand g' = player_hand g ++ drawn /\
    dealer_hand g' = dealer_hand g /\
    phase_rank (game_state g) <= phase_rank (game_state g').
Proof.
  intros Hnot Hev.
  assert (Hsame : forall g0, exists drawn : list card,
               (List.length drawn <= 1)%nat /\
               deck g0 = deck g0 ++ drawn /\
               player_hand g0 = player_hand g0 ++ drawn /\
               dealer_hand g0 = dealer_hand g0 /\
               phase_rank (game_state g0) <= phase_rank (game_state g0)).
  { intros g0. exists []. rewrite !app_nil_r. cbn. repeat split; lia. }
  destruct ev as [|button mouse_pos|].
  - cbn in Hev. injection Hev as <-. apply (Hsame g).
  - cbn [handle_event] in Hev.
    destruct (button =? 1) eqn:Hbutton; [|injection Hev as <-; apply Hsame].
    rewrite (not_restart_click _ _ Hnot Hbutton) in Hev. cbn [bind] in Hev.
    destruct (negb (round_over g)); [|injection Hev as <-; apply Hsame].
    destruct (game_state g) eqn:Hphase; cbn [phase_eqb] in Hev;
      try (injection Hev as <-; rewrite <- Hphase; apply Hsame).
    destruct (is_clicked btn_hit mouse_pos).
    + destruct (hit_moves g g' Hev) as (c & Hd & Hp & Hdl & Hgs).
      exists [c]. cbn [List.length]. repeat split; try assumption; try lia.
      rewrite Hphase in Hgs. destruct Hgs as [-> | ->]; cbn; lia.
    + destruct (is_clicked btn_stand mouse_pos); injection Hev as <-.
      * exists []. rewrite !app_nil_r. cbn. repeat split; lia.
      * rewrite <- Hphase. apply Hsame.
  - cbn in Hev. injection Hev as <-. apply (Hsame g).
Qed.

Lemma event_moves_forward_witness :
  exists drawn,
    deck (started rotate1) = deck finished ++ drawn /\
    player_hand finished = player_hand (started rotate1) ++ drawn.
Proof.
  destruct (event_moves_forward rotate1 (started rotate1) finished
              (MOUSEBUTTONDOWN 1 hit_pos))
    as (drawn & _ & Hd & Hp & _).
  - intros (mouse_pos & Heq & Hclick). injection Heq as <-. discriminate Hclick.
  - reflexivity.
  - exists drawn. split; assumption.
Defined.

(** X12.  One [update] moves at most one card, from the end of the deck to the end
    of the dealer's hand; it leaves the player's hand alone and never takes
    the phase backwards. *)
Theorem update_moves_forward (g g' : Game) :
  update g = Ok g' ->
  exists drawn,
    (List.length drawn <= 1)%nat /\
    deck g = deck g' ++ drawn /\
    dealer_hand g' = dealer_hand g ++ drawn /\
    player_hand g' = player_hand g /\
    phase_rank (game_state g) <= phase_rank (game_state g').
Proof.
  unfold update. destruct (game_state g) eqn:Hphase; cbn [phase_eqb];
    try (intros [= <-]; exists []; rewrite !app_nil_r, Hphase; cbn;
         repeat split; lia).
  destruct (score_hand (dealer_hand g) <? 17).
  - destruct (pop (deck g)) as [[c d]|] eqn:Hpop; cbn [bind]; [|discriminate].
    apply pop_Ok in Hpop. intros [= <-]. exists [c]. cbn.
    rewrite Hphase. cbn. repeat split; try assumption; lia.
  - intros [= <-].
    destruct (determine_winner_frame (set_round_over true (set_game_state DONE g)))
      as (_ & -> & -> & -> & _ & ->).
    exists []. rewrite !app_nil_r. cbn. repeat split; lia.
Qed.

Lemma update_moves_forward_witness :
  exists g' drawn,
    update scenario5_state = Ok g' /\
    deck scenario5_state = deck g' ++ drawn /\
    dealer_hand g' = dealer_hand scenario5_state ++ drawn.
Proof.
  eexists.
  destruct (update_moves_forward scenario5_state _ eq_refl)
    as (drawn & _ & Hd & Hdl & _).
  exists drawn. split; [reflexivity|]. split; assumption.
Defined.

Lemma finished_reachable : reachable finished.
Proof.
  apply (reach_event rotate1 (started rotate1) (MOUSEBUTTONDOWN 1 hit_pos)).
  - exact (started_reachable rotate1 is_shuffle_rotate1).
  - exact is_shuffle_rotate1.
  - reflexivity.
Qed.

(** X13.  A finished round stays as it is: [update] does nothing, and an event
    that is not a click on Restart changes at most the [running] flag. *)
Theorem done_is_final (g : Game) :
  reachable g -> game_state g = DONE ->
  update g = Ok g /\
  forall sh ev g',
    ~ restart_click ev -> handle_event sh g ev = Ok g' ->
    g' = g \/ g' = set_running false g.
Proof.
  intros Hreach Hdone.
  destruct (reachable_inv g Hreach) as (_ & Hover & _).
  assert (Hover' : round_over g = true) by now apply Hover.
  split; [apply update_idle; rewrite Hdone; discriminate|].
  intros sh ev g' Hnot Hev. destruct ev as [|button mouse_pos|].
  - cbn in Hev. injection Hev as <-. now right.
  - cbn [handle_event] in Hev.
    destruct (button =? 1) eqn:Hbutton; [|injection Hev as <-; now left].
    rewrite (not_restart_click _ _ Hnot Hbutton) in Hev. cbn [bind] in Hev.
    rewrite Hover' in Hev. cbn [negb] in Hev. injection Hev as <-. now left.
  - cbn in Hev. injection Hev as <-. now left.
Qed.

Lemma done_is_final_witness :
  update finished = Ok finished.
Proof.
  exact (proj1 (done_is_final finished finished_reachable eq_refl)).
Defined.

(** X14.  The deck never runs out: in every reachable state the three
    collections hold 52 cards together and the deck at least 13 of them. *)
Theorem deck_never_runs_out (g : Game) :
  reachable g ->
  (List.length (deck g) + List.length (player_hand g)
   + List.length (dealer_hand g) = 52)%nat /\
  (13 <= List.length (deck g))%nat.
Proof.
  intros Hreach. pose proof (reachable_inv g Hreach) as Hinv.
  split; [|now apply round_inv_deck].
  destruct Hinv as (Hperm & _). apply Permutation_length in Hperm.
  unfold all_cards in Hperm. rewrite !length_app, make_deck_length in Hperm.
  lia.
Qed.

Lemma deck_never_runs_out_witness :
  (13 <= List.length (deck finished))%nat.
Proof.
  exact (proj2 (deck_never_runs_out finished finished_reachable)).
Defined.

(** * Outcomes *)

Lemma hard_total_app (a b : list card) :
  hard_total (a ++ b) = hard_total a + hard_total b.
Proof.
  induction a as [|c a IH]; [reflexivity|].
  cbn [app]. rewrite !hard_total_cons, IH. lia.
Qed.

Lemma score_le_max (hand : list card) :
  score_hand hand <= Z.max 21 (hard_total hand).
Proof.
  destruct (Z_le_gt_dec (hard_total hand) 21) as [Hlow|Hhigh].
  - pose proof (score_le_21 hand Hlow). lia.
  - rewrite score_hand_eq, promote_over; lia.
Qed.

(** One more card on a hand below 17 gives at most 26. *)
Lemma score_after_draw (hand : list card) (c : card) :
  score_hand hand < 17 -> score_hand (hand ++ [c]) <= 26.
Proof.
  intros Hlow. pose proof (score_le_max (hand ++ [c])) as Hmax.
  pose proof (hard_total_le_score hand) as Hhard.
  rewrite hard_total_app in Hmax.
  change (hard_total [c]) with (Z.min (fst c) 10 + 0) in Hmax. lia.
Qed.

Lemma hit_outcome (g g' : Game) :
  hit g = Ok g' ->
  exists c,
    player_hand g' = player_hand g ++ [c] /\
    dealer_hand g' = dealer_hand g /\
    ((21 < score_hand (player_hand g') /\ game_state g' = DONE /\
      winner_text g' = "You busted! Dealer wins.") \/
     (score_hand (player_hand g') = 21 /\ game_state g' = DONE /\
      winner_text g' = "You hit 21! You win.") \/
     (score_hand (player_hand g') < 21 /\ game_state g' = game_state g)).
Proof.
  unfold hit. destruct (pop (deck g)) as [[c d]|]; cbn [bind]; [|discriminate].
  cbn [player_hand set_player_hand].
  destruct (score_hand (player_hand g ++ [c]) >? 21) eqn:Hbust;
    [|destruct (score_hand (player_hand g ++ [c]) =? 21) eqn:H21];
    intros [= <-]; exists c; cbn; (split; [reflexivity|]);
    (split; [reflexivity|]).
  - left. split; [lia | auto].
  - right. left. split; [lia | auto].
  - right. right. split; [lia | reflexivity].
Qed.

Lemma new_round_play_inv (sh : shuffler) (g g' : Game) :
  is_shuffle sh -> new_round sh g = Ok g' -> play_inv g'.
Proof.
  intros Hsh Hnew.
  destruct (new_round_Ok sh g Hsh) as (d & d2 & d1 & p2 & p1 & _ & Hres).
  rewrite Hres in Hnew. injection Hnew as <-.
  unfold play_inv. cbn [player_hand dealer_hand game_state List.length].
  split; [lia|]. split; [lia|]. split; [|split; discriminate].
  assert (score_hand [d1; d2] <= 21); [|lia].
  apply score_le_21. unfold hard_total. cbn [fold_right]. lia.
Qed.

Lemma hit_play_inv (g g' : Game) :
  play_inv g -> game_state g = PLAYER_TURN -> hit g = Ok g' -> play_inv g'.
Proof.
  intros (Hlp & Hld & Hd26 & Hstood & Hdone) Hphase Hhit.
  destruct (hit_outcome g g' Hhit) as (c & Hp & Hdl & Hcases).
  unfold play_inv. rewrite Hdl.
  split; [rewrite Hp, length_app; cbn [List.length]; lia|].
  split; [exact Hld|]. split; [exact Hd26|].
  destruct Hcases as [(Hs & Hgs & Hwt)|[(Hs & Hgs & Hwt)|(Hs & Hgs)]].
  - split; [rewrite Hgs; discriminate|].
    intros _. unfold outcome_ok. left. auto.
  - split; [rewrite Hgs; discriminate|].
    intros _. unfold outcome_ok. right. left. auto.
  - rewrite Hgs, Hphase. split; discriminate.
Qed.

Lemma handle_event_play_inv (sh : shuffler) (g g' : Game) (ev : event) :
  round_inv g -> play_inv g -> is_shuffle sh ->
  handle_event sh g ev = Ok g' -> play_inv g'.
Proof.
  intros Hinv Hplay Hsh Hev. destruct ev as [|button mouse_pos|].
  - cbn in Hev. injection Hev as <-. exact Hplay.
  - cbn [handle_event] in Hev.
    destruct (button =? 1); [|now injection Hev as <-].
    assert (Hmid : exists g1,
               (if is_clicked btn_restart mouse_pos then new_round sh g
                else Ok g) = Ok g1 /\ round_inv g1 /\ play_inv g1).
    { destruct (is_clicked btn_restart mouse_pos).
      - destruct (new_round_Ok sh g Hsh) as (? & ? & ? & ? & ? & _ & Hres).
        eexists. split; [exact Hres|]. split.
        + now apply (new_round_inv sh g).
        + now apply (new_round_play_inv sh g).
      - now exists g. }
    destruct Hmid as (g1 & Hg1 & Hinv1 & Hplay1). rewrite Hg1 in Hev.
    cbn [bind] in Hev.
    destruct (round_over g1); cbn [negb] in Hev; [now injection Hev as <-|].
    destruct (game_state g1) eqn:Hphase; cbn [phase_eqb] in Hev;
      try now injection Hev as <-.
    destruct (is_clicked btn_hit mouse_pos).
    + now apply (hit_play_inv g1).
    + destruct (is_clicked btn_stand mouse_pos); injection Hev as <-;
        [|exact Hplay1].
      destruct Hinv1 as (_ & _ & _ & Hscore & _).
      destruct Hplay1 as (Hlp & Hld & Hd26 & _ & _).
      unfold play_inv. cbn.
      split; [exact Hlp|]. split; [exact Hld|]. split; [exact Hd26|].
      split; [intros _; now apply Hscore | discriminate].
  - cbn in Hev. now injection Hev as <-.
Qed.

Lemma update_play_inv (g g' : Game) :
  play_inv g -> update g = Ok g' -> play_inv g'.
Proof.
  intros Hplay Hupd.
  destruct (game_state g) eqn:Hphase;
    try (rewrite update_idle in Hupd by congruence; now injection Hupd as <-).
  destruct Hplay as (Hlp & Hld & Hd26 & Hstood & _).
  specialize (Hstood Hphase).
  unfold update in Hupd. rewrite Hphase in Hupd. cbn [phase_eqb] in Hupd.
  destruct (score_hand (dealer_hand g) <? 17) eqn:Hlow.
  - destruct (pop (deck g)) as [[c d]|]; cbn [bind] in Hupd; [|discriminate].
    injection Hupd as <-. unfold play_inv. cbn.
    split; [exact Hlp|].
    split; [rewrite length_app; cbn [List.length]; lia|].
    split; [apply score_after_draw; lia|].
    split; [intros _; exact Hstood|]. rewrite Hphase. discriminate.
  - injection Hupd as <-.
    destruct (determine_winner_frame (set_round_over true (set_game_state DONE g)))
      as (_ & _ & Hp & Hdl & _ & Hgs).
    unfold play_inv, outcome_ok. rewrite Hp, Hdl, Hgs. cbn.
    split; [exact Hlp|]. split; [exact Hld|]. split; [exact Hd26|].
    split; [discriminate|]. intros _.
    unfold determine_winner.
    cbn [player_hand dealer_hand set_round_over set_game_state].
    destruct (score_hand (dealer_hand g) >? 21) eqn:E1;
      [|destruct (score_hand (player_hand g) >? score_hand (dealer_hand g)) eqn:E2;
        [|destruct (score_hand (player_hand g) <? score_hand (dealer_hand g)) eqn:E3]];
      cbn [winner_text set_winner_text].
    + right. right. left. split; [reflexivity|]. lia.
    + right. right. right. left. split; [reflexivity|]. lia.
    + right. right. right. right. left. split; [reflexivity|]. lia.
    + right. right. right. right. right. split; [reflexivity|]. lia.
Qed.

Lemma reachable_play_inv (g : Game) : reachable g -> play_inv g.
Proof.
  induction 1 as [sh g Hsh Hinit|sh g ev g' Hreach IH Hsh Hev|g g' _ IH Hupd].
  - now apply (new_round_play_inv sh blank).
  - apply (handle_event_play_inv sh g g' ev); try assumption.
    now apply reachable_inv.
  - now apply (update_play_inv g).
Qed.

(** X15.  In every finished round the winner text agrees with the scores: the
    bust text only with the player over 21, the 21 text only on 21, a win
    for the player only with the player within 21 and the dealer over 21 or
    lower, a win for the dealer only with the dealer within 21 and higher,
    and a tie only on equal scores within 21. *)
Theorem outcome_matches_scores (g : Game) :
  reachable g -> game_state g = DONE -> outcome_ok g.
Proof.
  intros Hreach Hdone.
  destruct (reachable_play_inv g Hreach) as (_ & _ & _ & _ & Hok).
  now apply Hok.
Qed.

Lemma outcome_matches_scores_witness : outcome_ok finished.
Proof.
  exact (outcome_matches_scores finished finished_reachable eq_refl).
Defined.

(** X16.  Asking for the winner twice gives the same text as asking once, and
    changes nothing but the text. *)
Theorem determine_winner_idempotent (g : Game) :
  determine_winner (determine_winner g) = determine_winner g.
Proof.
  unfold determine_winner.
  destruct (score_hand (dealer_hand g) >? 21) eqn:E1;
    [|destruct (score_hand (player_hand g) >? score_hand (dealer_hand g)) eqn:E2;
      [|destruct (score_hand (player_hand g) <? score_hand (dealer_hand g)) eqn:E3]];
    cbn [player_hand dealer_hand set_winner_text];
    rewrite ?E1, ?E2, ?E3; reflexivity.
Qed.

(** * The dealer's turn as a whole *)

Lemma dealer_stands (g : Game) :
  play_inv g -> game_state g = DEALER_TURN ->
  17 <= score_hand (dealer_hand g) ->
  exists g',
    updates 1 g = Ok g' /\
    play_inv g' /\
    game_state g' = DONE /\
    17 <= score_hand (dealer_hand g') /\
    player_hand g' = player_hand g /\
    dealer_hand g' = dealer_hand g.
Proof.
  intros Hplay Hphase Hhigh.
  pose proof (update_stand g Hphase Hhigh) as Hupd.
  exists (determine_winner (set_round_over true (set_game_state DONE g))).
  cbn [updates]. rewrite Hupd. cbn [bind].
  split; [reflexivity|].
  split; [exact (update_play_inv g _ Hplay Hupd)|].
  destruct (determine_winner_frame (set_round_over true (set_game_state DONE g)))
    as (_ & _ & -> & -> & _ & ->).
  cbn. auto.
Qed.

Lemma dealer_finishes_from (m : nat) :
  forall g,
    round_inv g -> play_inv g -> game_state g = DEALER_TURN ->
    17 - hard_total (dealer_hand g) <= Z.of_nat m ->
    exists n g' drawn,
      (1 <= n <= S m)%nat /\
      updates n g = Ok g' /\
      play_inv g' /\
      game_state g' = DONE /\
      17 <= score_hand (dealer_hand g') /\
      player_hand g' = player_hand g /\
      dealer_hand g' = dealer_hand g ++ drawn /\
      List.length drawn = (n - 1)%nat.
Proof.
  assert (Hstand : forall m g,
             play_inv g -> game_state g = DEALER_TURN ->
             17 <= score_hand (dealer_hand g) ->
             exists n g' drawn,
               (1 <= n <= S m)%nat /\
               updates n g = Ok g' /\
               play_inv g' /\
               game_state g' = DONE /\
               17 <= score_hand (dealer_hand g') /\
               player_hand g' = player_hand g /\
               dealer_hand g' = dealer_hand g ++ drawn /\
               List.length drawn = (n - 1)%nat).
  { intros m0 g Hplay Hphase Hhigh.
    destruct (dealer_stands g Hplay Hphase Hhigh)
      as (g' & Hups & Hplay' & Hdone & Hscore & Hp & Hdl).
    exists 1%nat, g', []. rewrite app_nil_r.
    split; [lia|]. repeat (split; [assumption|]). reflexivity. }
  induction m as [|m IH]; intros g Hinv Hplay Hphase Hm;
    pose proof (hard_total_le_score (dealer_hand g)) as Hhard;
    (destruct (Z_lt_le_dec (score_hand (dealer_hand g)) 17) as [Hlow|Hhigh];
     [|now apply Hstand]).
  - lia.
  - destruct (round_inv_draw g Hinv) as (d & c & Hdeck & _).
    pose proof (update_draw g d c Hphase Hlow Hdeck) as Hupd.
    pose proof (update_inv g _ Hinv Hupd) as Hinv1.
    pose proof (update_play_inv g _ Hplay Hupd) as Hplay1.
    destruct (round_inv_valid g Hinv) as (Hvd & _).
    rewrite Hdeck in Hvd. apply Forall_app in Hvd as (_ & Hvc).
    inversion Hvc as [|? ? Hc _]; subst. unfold valid_card in Hc.
    destruct (IH _ Hinv1 Hplay1) as (n & g' & drawn & Hn & Hups & Hplay' & Hdone
                                     & Hscore & Hp & Hdl & Hlen).
    + exact Hphase.
    + cbn [dealer_hand set_dealer_hand]. rewrite hard_total_app.
      change (hard_total [c]) with (Z.min (fst c) 10 + 0). lia.
    + exists (S n), g', (c :: drawn). cbn [updates]. rewrite Hupd. cbn [bind].
      cbn [dealer_hand set_dealer_hand player_hand set_deck] in Hdl, Hp.
      rewrite <- app_assoc in Hdl. cbn [List.length].
      split; [lia|]. repeat (split; [assumption|]). lia.
Qed.

(** X17.  The dealer's turn always ends: from a reachable state in the dealer's
    turn, at most 16 calls of [update] reach [DONE], with the dealer on 17
    to 26, the player's hand untouched, and one card added to the dealer's
    hand by each call but the last. *)
Theorem dealer_finishes (g : Game) :
  reachable g -> game_state g = DEALER_TURN ->
  exists n g' drawn,
    (1 <= n <= 16)%nat /\
    updates n g = Ok g' /\
    game_state g' = DONE /\
    17 <= score_hand (dealer_hand g') <= 26 /\
    player_hand g' = player_hand g /\
    dealer_hand g' = dealer_hand g ++ drawn /\
    List.length drawn = (n - 1)%nat.
Proof.
  intros Hreach Hphase.
  pose proof (reachable_inv g Hreach) as Hinv.
  pose proof (reachable_play_inv g Hreach) as Hplay.
  destruct (round_inv_valid g Hinv) as (_ & _ & Hvd).
  pose proof (length_le_hard_total _ Hvd) as Hlen.
  destruct Hplay as (Hlp & Hld & Hrest).
  destruct (dealer_finishes_from 15 g Hinv (conj Hlp (conj Hld Hrest)) Hphase)
    as (n & g' & drawn & Hn & Hups & Hplay' & Hdone & Hscore & Hp & Hdl & Hdr);
    [lia|].
  exists n, g', drawn.
  destruct Hplay' as (_ & _ & Hd26 & _).
  repeat split; try assumption; lia.
Qed.

Lemma dealer_finishes_witness :
  exists n g',
    (n <= 16)%nat /\ updates n (stood reversed) = Ok g' /\
    game_state g' = DONE.
Proof.
  destruct (dealer_finishes (stood reversed) stood_reversed_reachable eq_refl)
    as (n & g' & _ & Hn & Hups & Hdone & _).
  exists n, g'. repeat split; [lia | assumption..].
Defined.

Example dealer_plays_out :
  exists g',
    updates 3 (stood reversed) = Ok g' /\
    dealer_hand g' = [(3, Clubs); (4, Clubs); (5, Clubs); (6, Clubs)] /\
    score_hand (dealer_hand g') = 18 /\
    winner_text g' = "Dealer wins.".
Proof. eexists. repeat split. Qed.

(** * Drawing the screen *)

Lemma shown_dealer_hidden (g : Game) (c : card) (rest : list card) :
  game_state g = PLAYER_TURN -> round_over g = false ->
  dealer_hand g = c :: rest ->
  shown_dealer g =
  Ok (card_to_string c :: repeat "??" (List.length rest), "").
Proof.
  intros Hphase Hover Hdl. unfold shown_dealer.
  rewrite Hphase, Hover, Hdl. cbn [phase_eqb negb andb item0 bind].
  unfold len, times. cbn [List.length].
  replace (Z.of_nat (S (List.length rest)) - 1)
    with (Z.of_nat (List.length rest)) by lia.
  rewrite Nat2Z.id.
  destruct rest as [|c' rest'].
  - reflexivity.
  - assert ((Z.of_nat (S (List.length (c' :: rest'))) >? 1) = true) as Hgt
      by (apply Z.gtb_gt; cbn [List.length]; lia).
    rewrite Hgt. reflexivity.
Qed.

Lemma draw_Error (g : Game) :
  draw g = Error IndexError -> dealer_hand g = [].
Proof.
  unfold draw, shown_dealer.
  destruct (phase_eqb (game_state g) PLAYER_TURN && negb (round_over g));
    cbn [bind]; [|discriminate].
  destruct (dealer_hand g); cbn [item0 bind]; [reflexivity | discriminate].
Qed.

(** X18.  [draw] fails exactly in a running player's turn with an empty dealer's
    hand, where [self.dealer_hand[0]] has nothing to take. *)
Theorem draw_fails_iff (g : Game) :
  draw g = Error IndexError <->
  game_state g = PLAYER_TURN /\ round_over g = false /\ dealer_hand g = [].
Proof.
  unfold draw, shown_dealer. split.
  - destruct (game_state g); cbn [phase_eqb andb bind]; try discriminate.
    destruct (round_over g); cbn [negb bind]; try discriminate.
    destruct (dealer_hand g); cbn [item0 bind]; [auto | discriminate].
  - intros (-> & -> & ->). reflexivity.
Qed.

Lemma draw_fails_iff_witness : draw blank = Error IndexError.
Proof.
  apply draw_fails_iff. repeat split.
Defined.

(** X19.  While the player is to move, the screen shows of the dealer's hand only
    the first card and how many cards there are: two states that differ in
    the dealer's other cards, in the deck or in a stale winner text are
    drawn alike. *)
Theorem draw_hides_hole_cards (g1 g2 : Game) (c : card) (r1 r2 : list card) :
  game_state g1 = PLAYER_TURN -> round_over g1 = false ->
  game_state g2 = PLAYER_TURN -> round_over g2 = false ->
  player_hand g1 = player_hand g2 ->
  dealer_hand g1 = c :: r1 -> dealer_hand g2 = c :: r2 ->
  List.length r1 = List.length r2 ->
  draw g1 = draw g2.
Proof.
  intros Hp1 Ho1 Hp2 Ho2 Hplayer Hd1 Hd2 Hlen. unfold draw.
  rewrite (shown_dealer_hidden g1 c r1 Hp1 Ho1 Hd1).
  rewrite (shown_dealer_hidden g2 c r2 Hp2 Ho2 Hd2).
  unfold status_ops. rewrite Ho1, Ho2, Hp1, Hp2, Hplayer, Hlen. reflexivity.
Qed.

Lemma draw_hides_hole_cards_witness :
  draw (started rotate1) =
  draw (set_dealer_hand [(12, Spades); (2, Hearts)] (started rotate1)).
Proof.
  apply (draw_hides_hole_cards _ _ (12, Spades) [(11, Spades)] [(2, Hearts)]);
    reflexivity.
Defined.

Lemma draw_Ok (g : Game) :
  play_inv g -> exists screen, draw g = Ok screen.
Proof.
  intros (_ & Hld & _).
  destruct (draw g) as [screen|[]] eqn:Hdraw; [now exists screen|].
  apply draw_Error in Hdraw. rewrite Hdraw in Hld. cbn in Hld. lia.
Qed.

(** * The main loop *)

Lemma frame_steps (g : Game) (evs : list (shuffler * event)) :
  reachable g -> Forall (fun e => is_shuffle (fst e)) evs ->
  exists g1 g2 screen,
    handle_events g evs = Ok g1 /\ update g1 = Ok g2 /\ draw g2 = Ok screen /\
    reachable g2.
Proof.
  intros Hreach Hsh.
  destruct (frame_never_fails g evs Hreach Hsh) as (g2 & Hframe).
  pose proof (frame_reachable g g2 evs Hreach Hsh Hframe) as Hreach2.
  unfold frame in Hframe.
  destruct (handle_events g evs) as [g1|]; cbn [bind] in Hframe; [|discriminate].
  destruct (draw_Ok g2 (reachable_play_inv g2 Hreach2)) as (screen & Hdraw).
  exists g1, g2, screen. auto.
Qed.

(** X20.  The game never raises: from a reachable state, with shuffles that only
    reorder the deck, the loop runs through any event queues without an
    error, draws at most one screen per queue, and ends in a reachable
    state. *)
Theorem run_never_fails (frames : list (list (shuffler * event))) (g : Game) :
  reachable g ->
  Forall (Forall (fun e => is_shuffle (fst e))) frames ->
  exists g' screens,
    run g frames = Ok (g', screens) /\
    reachable g' /\
    (List.length screens <= List.length frames)%nat.
Proof.
  revert g. induction frames as [|evs rest IH]; intros g Hreach Hsh.
  - exists g, []. cbn [run]. destruct (running g); auto.
  - cbn [run]. destruct (running g).
    + inversion Hsh as [|? ? Hevs Hrest]; subst.
      destruct (frame_steps g evs Hreach Hevs)
        as (g1 & g2 & screen & -> & Hupd & Hdraw & Hreach2).
      cbn [bind]. rewrite Hupd. cbn [bind]. rewrite Hdraw. cbn [bind].
      destruct (IH g2 Hreach2 Hrest) as (g' & screens & -> & Hreach' & Hlen).
      cbn [bind]. exists g', (screen :: screens).
      cbn [List.length]. repeat split; [assumption | lia].
    + exists g, []. cbn [List.length]. repeat split; [assumption | lia].
Qed.

Lemma run_never_fails_witness :
  exists g' screens,
    run (started rotate1)
        [[(rotate1, MOUSEBUTTONDOWN 1 hit_pos)]; []; [(reversed, QUIT)]]
    = Ok (g', screens) /\ reachable g'.
Proof.
  destruct (run_never_fails
              [[(rotate1, MOUSEBUTTONDOWN 1 hit_pos)]; []; [(reversed, QUIT)]]
              (started rotate1)
              (started_reachable rotate1 is_shuffle_rotate1))
    as (g' & screens & Hrun & Hreach & _).
  - repeat constructor;
      [exact is_shuffle_rotate1 | exact is_shuffle_reversed].
  - exists g', screens. split; assumption.
Defined.


